(** * A resettable integrator: src/drivers/device/integrator.h

    Shallow embedding of the [Integrator] class of the PX4 firmware and the
    properties of its [put], [get] and [read] member functions.

    The class integrates a sampled 3-vector by the trapezoid rule into two
    accumulators: [_integral_auto], cleared by [put] itself once the
    accumulation window is longer than [_auto_reset_interval], and
    [_integral_read], cleared on demand by [read (true)].

    Numbers are modelled as the source has them:
    - [hrt_abstime] / [uint64_t] time stamps are [Z] with the wrap-around of
      unsigned 64-bit subtraction written out ([wrap64]);
    - the components of [math::Vector<3>] are [float]; the development is
      generic in the scalar arithmetic (class [Scalar]) and instantiates it
      twice: [binary32] is IEEE-754 single precision, round to nearest even,
      computed by the Standard Library's [SpecFloat]; [exact] is arithmetic
      without rounding on the rationals. *)

From Stdlib Require Import ZArith Bool List Lia.
From Stdlib Require Import Floats.SpecFloat.
From Stdlib Require Import QArith Qpower Qcanon Lqa.
Import ListNotations.

Set Implicit Arguments.
Local Open Scope Z_scope.

(** ** Unsigned 64-bit time stamps *)

Definition hrt_abstime := Z.

Definition two64 : Z := 2 ^ 64.

(** [uint64_t] values. *)
Definition u64 (z : Z) : Prop := 0 <= z < two64.

(** Reduction of a mathematical result to [uint64_t]. *)
Definition wrap64 (z : Z) : Z := z mod two64.

(** [a - b] on [uint64_t] operands. *)
Definition sub64 (a b : Z) : Z := wrap64 (a - b).

(** ** Scalar arithmetic of the vector components *)

(** The operations [put] performs on components, and the conversion of a
    time difference in microseconds to seconds:
    [(double)(d) / 1000000.0] passed to [Vector<3>::operator*(float)]. *)
Class Scalar (F : Type) : Type := {
  f0 : F;                       (* 0.0f *)
  fadd : F -> F -> F;
  fsub : F -> F -> F;
  fmul : F -> F -> F;
  fhalf : F;                    (* 0.5f *)
  fsixth : F;                   (* 1.0f / 6.0f *)
  seconds : Z -> F              (* (float)((double)d / 1000000.0) *)
}.

(** ** math::Vector<3> *)

Section Vector.
Context {F : Type} `{Scalar F}.

(** Modelled from the spec: [math::Vector<3>] of mathlib (not under
    src/), "a 3-element real vector supporting addition, scalar
    multiplication, and cross product"; [data[0..2]] are the components. *)
Record Vector3 : Type := mkVector3 { vx : F; vy : F; vz : F }.

(** Modelled from the spec: the vector (0.0f, 0.0f, 0.0f) of mathlib's
    [Vector<3>]. *)
Definition vzero : Vector3 := mkVector3 f0 f0 f0.

(** Modelled from the spec: [Vector<3>::operator+] of mathlib, the
    component-wise sum. *)
Definition vadd (a b : Vector3) : Vector3 :=
  mkVector3 (fadd (vx a) (vx b)) (fadd (vy a) (vy b)) (fadd (vz a) (vz b)).

(** Modelled from the spec: [Vector<3>::operator*(float)] of mathlib,
    uniform scaling, [data[i] * num]. *)
Definition vscale (a : Vector3) (k : F) : Vector3 :=
  mkVector3 (fmul (vx a) k) (fmul (vy a) k) (fmul (vz a) k).

(** Modelled from the spec: [Vector<3>::operator%] of mathlib, the cross
    product. *)
Definition vcross (a b : Vector3) : Vector3 :=
  mkVector3 (fsub (fmul (vy a) (vz b)) (fmul (vz a) (vy b)))
            (fsub (fmul (vz a) (vx b)) (fmul (vx a) (vz b)))
            (fsub (fmul (vx a) (vy b)) (fmul (vy a) (vx b))).
End Vector.

Arguments Vector3 F : clear implicits.

(** ** The Integrator object *)

(** A function pointer: [None] is [nullptr], [Some a] the function at
    address [a]. *)
Definition fnptr := option N.

(** One invocation [f (timestamp, integral)] of a callback. *)
Record CallbackCall (F : Type) : Type := mkCall {
  call_target : N;
  call_timestamp : hrt_abstime;
  call_integral : Vector3 F
}.

(** The private data members. *)
Record Integrator (F : Type) : Type := mkIntegrator {
  _auto_reset_interval : hrt_abstime;
  _last_integration : hrt_abstime;
  _last_auto : hrt_abstime;
  _integral_auto : Vector3 F;
  _integral_read : Vector3 F;
  _last_val : Vector3 F;
  _last_delta : Vector3 F;
  _auto_callback : fnptr;
  _coning_comp_on : bool
}.

(** What one call of [put] leaves behind: the object, the two reference
    parameters [integral] and [integral_dt], the return value, and the
    callback invocations made during the call. *)
Record PutResult (F : Type) : Type := mkPutResult {
  put_state : Integrator F;
  put_integral : Vector3 F;
  put_integral_dt : Z;
  put_ret : bool;
  put_calls : list (CallbackCall F)
}.

Section IntegratorOps.
Context {F : Type} `{Scalar F}.

(** [Integrator::Integrator(auto_reset_interval, coning_compensation)]. *)
Definition new (auto_reset_interval : hrt_abstime)
           (coning_compensation : bool) : Integrator F :=
  {| _auto_reset_interval := auto_reset_interval;
     _last_integration := 0;
     _last_auto := 0;
     _integral_auto := vzero;
     _integral_read := vzero;
     _last_val := vzero;
     _last_delta := vzero;
     _auto_callback := None;
     _coning_comp_on := coning_compensation |}.

(** The trapezoid of lines 133-134:
    [dt = (double)(timestamp - _last_integration) / 1000000.0;
     i = (val + _last_val) * dt * 0.5f]. *)
Definition trapezoid (s : Integrator F) (timestamp : hrt_abstime)
           (val : Vector3 F) : Vector3 F :=
  let dt := seconds (sub64 timestamp (_last_integration s)) in
  vscale (vscale (vadd val (_last_val s)) dt) fhalf.

(** The correction added to [i] at line 143:
    [((_integral_auto + _last_delta * (1.0f / 6.0f)) % i) * 0.5f]. *)
Definition coning_term (s : Integrator F) (i : Vector3 F) : Vector3 F :=
  vscale (vcross (vadd (_integral_auto s) (vscale (_last_delta s) fsixth)) i)
         fhalf.

(** The increment [i] as it stands at line 146. *)
Definition increment (s : Integrator F) (timestamp : hrt_abstime)
           (val : Vector3 F) : Vector3 F :=
  let i := trapezoid s timestamp val in
  if _coning_comp_on s then vadd i (coning_term s i) else i.

(** [Integrator::put(timestamp, val, integral, integral_dt)];
    [integral] and [integral_dt] are the values the caller's variables
    hold when the call is made. *)
Definition put (s : Integrator F) (timestamp : hrt_abstime)
           (val integral : Vector3 F) (integral_dt : Z) : PutResult F :=
  if _last_integration s =? 0 then
    (* this is the first item in the integrator *)
    {| put_state :=
         {| _auto_reset_interval := _auto_reset_interval s;
            _last_integration := timestamp;
            _last_auto := timestamp;
            _integral_auto := _integral_auto s;
            _integral_read := _integral_read s;
            _last_val := val;
            _last_delta := _last_delta s;
            _auto_callback := _auto_callback s;
            _coning_comp_on := _coning_comp_on s |};
       put_integral := integral;
       put_integral_dt := integral_dt;
       put_ret := false;
       put_calls := [] |}
  else
    let i := increment s timestamp val in
    let integral_auto := vadd (_integral_auto s) i in
    let integral_read := vadd (_integral_read s) i in
    if _auto_reset_interval s <? sub64 timestamp (_last_auto s) then
      {| put_state :=
           {| _auto_reset_interval := _auto_reset_interval s;
              _last_integration := timestamp;
              _last_auto := timestamp;
              _integral_auto := vzero;
              _integral_read := integral_read;
              _last_val := val;
              _last_delta := i;
              _auto_callback := _auto_callback s;
              _coning_comp_on := _coning_comp_on s |};
         put_integral := integral_auto;
         put_integral_dt := sub64 timestamp (_last_auto s);
         put_ret := true;
         put_calls :=
           match _auto_callback s with
           | Some f => [mkCall f timestamp integral_auto]
           | None => []
           end |}
    else
      {| put_state :=
           {| _auto_reset_interval := _auto_reset_interval s;
              _last_integration := timestamp;
              _last_auto := _last_auto s;
              _integral_auto := integral_auto;
              _integral_read := integral_read;
              _last_val := val;
              _last_delta := i;
              _auto_callback := _auto_callback s;
              _coning_comp_on := _coning_comp_on s |};
         put_integral := integral;
         put_integral_dt := integral_dt;
         put_ret := false;
         put_calls := [] |}.

(** [Integrator::get()]. *)
Definition get (s : Integrator F) : Vector3 F := _integral_auto s.

(** [Integrator::current_integral_start()]. *)
Definition current_integral_start (s : Integrator F) : hrt_abstime :=
  _last_auto s.

(** [Integrator::read(auto_reset)]: the returned vector and the object
    afterwards. *)
Definition read (s : Integrator F) (auto_reset : bool)
  : Vector3 F * Integrator F :=
  let val := _integral_read s in
  if auto_reset then
    (val,
     {| _auto_reset_interval := _auto_reset_interval s;
        _last_integration := _last_integration s;
        _last_auto := _last_auto s;
        _integral_auto := _integral_auto s;
        _integral_read := vzero;
        _last_val := _last_val s;
        _last_delta := _last_delta s;
        _auto_callback := _auto_callback s;
        _coning_comp_on := _coning_comp_on s |})
  else (val, s).
End IntegratorOps.

(** ** IEEE-754 arithmetic of the target *)

Module Binary32.
(** Every [float] operation of the source is one IEEE-754 operation,
    rounded once to nearest even (no fused multiply-add, no excess
    precision).

    [float]: 24 bits of precision, infinities at exponent 128. *)
Definition prec : Z := 24.
Definition emax : Z := 128.
(** [double]: 53 bits of precision, infinities at exponent 1024. *)
Definition dprec : Z := 53.
Definition demax : Z := 1024.

Definition float := spec_float.

(** The [float] nearest to [m * 2^e]. *)
Definition of_Z2 (m e : Z) : float := binary_normalize prec emax m e false.

(** The [float] of an integer literal. *)
Definition of_Z (m : Z) : float := of_Z2 m 0.

(** [(double) d] for an unsigned integer [d]. *)
Definition double_of_Z (d : Z) : spec_float :=
  binary_normalize dprec demax d 0 false.

(** Conversion [double] to [float] (round to nearest even). *)
Definition float_of_double (x : spec_float) : float :=
  match x with
  | S754_finite s m e => binary_round prec emax s m e
  | _ => x
  end.

(** [(double) d / 1000000.0], then the implicit conversion to the [float]
    parameter of [operator*]. *)
Definition seconds32 (d : Z) : float :=
  float_of_double (SFdiv dprec demax (double_of_Z d) (double_of_Z 1000000)).

#[export] Instance binary32 : Scalar float := {
  f0 := S754_zero false;
  fadd := SFadd prec emax;
  fsub := SFsub prec emax;
  fmul := SFmul prec emax;
  fhalf := of_Z2 1 (-1);
  fsixth := SFdiv prec emax (of_Z 1) (of_Z 6);
  seconds := seconds32
}.

(** The rational a finite [float] denotes. *)
Definition value (x : float) : option Q :=
  match x with
  | S754_zero _ => Some 0%Q
  | S754_finite s m e =>
      Some (if s then Qopp (inject_Z (Zpos m) * Qpower 2 e)
            else (inject_Z (Zpos m) * Qpower 2 e))%Q
  | _ => None
  end.

(** [lo < x < hi] for a finite [x]. *)
Definition between (lo hi : Q) (x : float) : Prop :=
  match value x with
  | Some q => (lo < q /\ q < hi)%Q
  | None => False
  end.

(** The same IEEE value: identical, or both a zero of either sign
    ([0.0f + -0.0f] is [+0.0f], and [-0.0f == +0.0f]). *)
Definition same_value (x y : float) : Prop :=
  match x, y with
  | S754_zero _, S754_zero _ => True
  | _, _ => x = y
  end.

Definition vsame (a b : Vector3 float) : Prop :=
  same_value (vx a) (vx b) /\ same_value (vy a) (vy b) /\
  same_value (vz a) (vz b).

(** The vector of three integer literals. *)
Definition vec3 (a b c : Z) : Vector3 float :=
  mkVector3 (of_Z a) (of_Z b) (of_Z c).
End Binary32.

(** ** Arithmetic without rounding *)

Module Exact.
#[export] Instance exact : Scalar Qc := {
  f0 := Q2Qc 0;
  fadd := Qcplus;
  fsub := Qcminus;
  fmul := Qcmult;
  fhalf := Q2Qc (1 # 2);
  fsixth := Q2Qc (1 # 6);
  seconds := fun d => Q2Qc (d # 1000000)
}.
End Exact.

(** ** Sequences of calls *)

(** The two states the sentinel [_last_integration == 0] distinguishes. *)
Inductive Phase : Type := Uninitialized | Running.

(** A call of a public member function, with its arguments. *)
Inductive Call (F : Type) : Type :=
| CallPut (timestamp : hrt_abstime) (val integral : Vector3 F) (integral_dt : Z)
| CallRead (auto_reset : bool)
| CallGet
| CallStart.

Arguments CallRead {F} auto_reset.
Arguments CallGet {F}.
Arguments CallStart {F}.

(** What an observer of one [put] sees: return value, the two reference
    parameters, and the two accumulators right after the call. *)
Record Observation (F : Type) : Type := mkObservation {
  obs_ret : bool;
  obs_integral : Vector3 F;
  obs_integral_dt : Z;
  obs_integral_auto : Vector3 F;
  obs_integral_read : Vector3 F
}.

Section Runs.
Context {F : Type} `{Scalar F}.

Definition phase (s : Integrator F) : Phase :=
  if _last_integration s =? 0 then Uninitialized else Running.

(** The object after one call, and the callback invocations of the call. *)
Definition step (s : Integrator F) (c : Call F)
  : Integrator F * list (CallbackCall F) :=
  match c with
  | CallPut timestamp val integral integral_dt =>
      let r := put s timestamp val integral integral_dt in
      (put_state r, put_calls r)
  | CallRead auto_reset => (snd (read s auto_reset), [])
  | CallGet => (s, [])
  | CallStart => (s, [])
  end.

(** The object after a sequence of calls, and every callback invocation
    made on the way, in order. *)
Fixpoint run (s : Integrator F) (cs : list (Call F))
  : Integrator F * list (CallbackCall F) :=
  match cs with
  | [] => (s, [])
  | c :: cs' =>
      let '(s1, k1) := step s c in
      let '(s2, k2) := run s1 cs' in
      (s2, k1 ++ k2)
  end.

Definition observe (r : PutResult F) : Observation F :=
  {| obs_ret := put_ret r;
     obs_integral := put_integral r;
     obs_integral_dt := put_integral_dt r;
     obs_integral_auto := get (put_state r);
     obs_integral_read := _integral_read (put_state r) |}.

(** A producer loop: one [put] per sample, always with the same two
    variables for [integral] and [integral_dt]. *)
Fixpoint put_all (s : Integrator F) (samples : list (hrt_abstime * Vector3 F))
         (integral : Vector3 F) (integral_dt : Z) : list (Observation F) :=
  match samples with
  | [] => []
  | (timestamp, val) :: rest =>
      let r := put s timestamp val integral integral_dt in
      observe r ::
      put_all (put_state r) rest (put_integral r) (put_integral_dt r)
  end.

(** Two objects that differ at most in [_coning_comp_on]. *)
Definition same_but_coning (a b : Integrator F) : Prop :=
  _auto_reset_interval a = _auto_reset_interval b /\
  _last_integration a = _last_integration b /\
  _last_auto a = _last_auto b /\
  _integral_auto a = _integral_auto b /\
  _integral_read a = _integral_read b /\
  _last_val a = _last_val b /\
  _last_delta a = _last_delta b /\
  _auto_callback a = _auto_callback b.

(** [v] is a scalar multiple of the direction [d]. *)
Definition multiple_of (d v : Vector3 F) : Prop :=
  exists c : F, v = vscale d c.

(** Every vector the coning term reads from [s] lies along [d]. *)
Definition along (d : Vector3 F) (s : Integrator F) : Prop :=
  multiple_of d (_integral_auto s) /\
  multiple_of d (_last_delta s) /\
  multiple_of d (_last_val s).

(** A call that is not a [put] with time stamp 0. *)
Definition nonzero_stamp (c : Call F) : Prop :=
  match c with
  | CallPut timestamp _ _ _ => timestamp <> 0
  | _ => True
  end.
End Runs.

(** Arithmetic without rounding: the laws of a commutative ring that the
    coning term relies on. *)
Class ExactArith (F : Type) `{Scalar F} : Prop := {
  fadd_0_r : forall x : F, fadd x f0 = x;
  fmul_0_l : forall x : F, fmul f0 x = f0;
  fsub_diag : forall x : F, fsub x x = f0;
  fmul_comm : forall x y : F, fmul x y = fmul y x;
  fmul_assoc : forall x y z : F, fmul x (fmul y z) = fmul (fmul x y) z;
  fmul_add_distr_l :
    forall x y z : F, fmul x (fadd y z) = fadd (fmul x y) (fmul x z)
}.

(** ** Two concrete runs in [float] arithmetic *)

Module Scenario.
Import Binary32 Exact.

(** [Integrator (4000, false)] and the calls [put (1000, (0,0,0))],
    [put (5000, (2,0,0))], [put (5001, (2,0,0))], the caller passing the
    same two variables for [integral] and [integral_dt] each time. *)
Definition fresh : Integrator float := new 4000 false.
Definition call1 : PutResult float := put fresh 1000 (vec3 0 0 0) vzero 0.
Definition call2 : PutResult float :=
  put (put_state call1) 5000 (vec3 2 0 0)
      (put_integral call1) (put_integral_dt call1).
Definition call3 : PutResult float :=
  put (put_state call2) 5001 (vec3 2 0 0)
      (put_integral call2) (put_integral_dt call2).

(** The same three calls without rounding. *)
Definition qvec3 (a b c : Z) : Vector3 Qc :=
  mkVector3 (Q2Qc (inject_Z a)) (Q2Qc (inject_Z b)) (Q2Qc (inject_Z c)).
Definition qcall1 : PutResult Qc :=
  put (new 4000 false) 1000 (qvec3 0 0 0) vzero 0.
Definition qcall2 : PutResult Qc :=
  put (put_state qcall1) 5000 (qvec3 2 0 0)
      (put_integral qcall1) (put_integral_dt qcall1).
Definition qcall3 : PutResult Qc :=
  put (put_state qcall2) 5001 (qvec3 2 0 0)
      (put_integral qcall2) (put_integral_dt qcall2).


(** An initialized object whose window started at 5000, and the sample
    used on it. *)
Definition unit_x : Vector3 float := vec3 1 0 0.
Definition started_at_5000 : Integrator float :=
  put_state (put fresh 5000 unit_x vzero 0).

(** Samples along (1, 2, 3) with rational factors. *)
Definition qdirection : Vector3 Qc := qvec3 1 2 3.
Definition qsamples : list (hrt_abstime * Vector3 Qc) :=
  [(1000, vscale qdirection (Q2Qc (1 # 3)));
   (2500, vscale qdirection (Q2Qc (7 # 5)));
   (7000, vscale qdirection (Q2Qc (-2 # 1)));
   (7100, vscale qdirection (Q2Qc (5 # 9)))].
End Scenario.

(** ** Properties of single calls *)

(** ** A producer feeding samples *)

Section Feeding.
Context {F : Type} `{Scalar F}.

(** The object after one [put] per sample. *)
Fixpoint feed (s : Integrator F) (samples : list (hrt_abstime * Vector3 F))
  : Integrator F :=
  match samples with
  | [] => s
  | (timestamp, val) :: rest => feed (put_state (put s timestamp val vzero 0)) rest
  end.

(** What the resetting calls among them hand to the caller: the pairs
    [(integral, integral_dt)], in order. *)
Fixpoint published (s : Integrator F)
         (samples : list (hrt_abstime * Vector3 F)) : list (Vector3 F * Z) :=
  match samples with
  | [] => []
  | (timestamp, val) :: rest =>
      let r := put s timestamp val vzero 0 in
      (if put_ret r then [(put_integral r, put_integral_dt r)] else [])
        ++ published (put_state r) rest
  end.

(** Sum of vectors, from the left. *)
Definition vsum (base : Vector3 F) (l : list (Vector3 F)) : Vector3 F :=
  fold_left vadd l base.

(** Sum of integers. *)
Definition zsum (l : list Z) : Z := fold_right Z.add 0 l.

(** Time stamps are [uint64_t] values that never run backwards, starting
    from [last]. *)
Fixpoint stamps_sorted (last : hrt_abstime)
         (samples : list (hrt_abstime * Vector3 F)) : Prop :=
  match samples with
  | [] => True
  | (timestamp, _) :: rest =>
      last <= timestamp < two64 /\ stamps_sorted timestamp rest
  end.

(** Two objects that differ at most in [_integral_read]. *)
Definition same_but_read (a b : Integrator F) : Prop :=
  _auto_reset_interval a = _auto_reset_interval b /\
  _last_integration a = _last_integration b /\
  _last_auto a = _last_auto b /\
  _integral_auto a = _integral_auto b /\
  _last_val a = _last_val b /\
  _last_delta a = _last_delta b /\
  _auto_callback a = _auto_callback b /\
  _coning_comp_on a = _coning_comp_on b.

(** The time stamps kept in the object are ordered [uint64_t] values and
    the open window is not longer than the reset interval. *)
Definition well_timed (s : Integrator F) : Prop :=
  0 <= _last_auto s <= _last_integration s /\
  _last_integration s < two64 /\
  _last_integration s - _last_auto s <= _auto_reset_interval s.
End Feeding.

(** Predicates on [float] values. *)
Module FloatClass32.
Import Binary32.

(** A value below zero, or a negative zero. *)
Definition negative (x : float) : Prop :=
  match x with
  | S754_zero true | S754_infinity true | S754_finite true _ _ => True
  | _ => False
  end.

(** A zero of either sign. *)
Definition zero (x : float) : Prop :=
  match x with
  | S754_zero _ => True
  | _ => False
  end.

(** Neither an infinity nor a NaN. *)
Definition finite (x : float) : Prop :=
  match x with
  | S754_zero _ | S754_finite _ _ _ => True
  | _ => False
  end.

Definition vfinite (a : Vector3 float) : Prop :=
  finite (vx a) /\ finite (vy a) /\ finite (vz a).
End FloatClass32.

(** Powers of two as rationals, and the seconds a number of microseconds
    denotes. *)
Module Pow2.
Definition pow2 (e : Z) : Q := Qpower 2 e.

(** [d] microseconds in seconds. *)
Definition micro (d : Z) : Q := inject_Z d / 1000000.
End Pow2.

(** Data along a coordinate axis, in [float] arithmetic. *)
Module OnAxis.
Import Binary32 FloatClass32.






End OnAxis.

(** Streams of samples used as concrete inputs. *)
Module Streams.
Import Binary32 Exact Scenario.

(** Four [float] samples; the third one closes the first window. *)
Definition fstream : list (hrt_abstime * Vector3 float) :=
  [(1000, vec3 0 0 0); (5000, vec3 2 0 0); (5001, vec3 2 0 0);
   (9500, vec3 1 1 1)].

(** Three samples continuing the object whose window started at 5000. *)
Definition later_stream : list (hrt_abstime * Vector3 float) :=
  [(9001, unit_x); (9002, vec3 0 1 0); (14000, vec3 0 0 1)].

(** Two samples that stay within the first window. *)
Definition short_stream : list (hrt_abstime * Vector3 float) :=
  [(1000, vec3 0 0 0); (5000, vec3 2 0 0)].

(** An object whose interval is [UINT64_MAX]. *)
Definition never_resetting : Integrator float := new (two64 - 1) false.


End Streams.

(** The three paths through [put]: the initializing one, the resetting
    one and the plain integrating one. *)
Ltac put_paths s t :=
  unfold put;
  destruct (_last_integration s =? 0);
  [| destruct (_auto_reset_interval s <? sub64 t (_last_auto s))].

(** The two paths through [put] on an object known to be initialized. *)
Ltac put_running s t :=
  unfold put;
  destruct (Z.eqb_spec (_last_integration s) 0) as [? | _];
  [contradiction |];
  destruct (_auto_reset_interval s <? sub64 t (_last_auto s)).

Section SingleCalls.
Context {F : Type} `{Scalar F}.

Lemma sub64_monotone (a b : Z) :
  0 <= b -> b <= a -> a < two64 -> sub64 a b = a - b.
Proof.
  intros Hb Hab Ha. unfold sub64, wrap64.
  apply Z.mod_small. lia.
Qed.

Lemma put_uninitialized (s : Integrator F) t v integral integral_dt :
  _last_integration s = 0 ->
  put s t v integral integral_dt =
  {| put_state :=
       {| _auto_reset_interval := _auto_reset_interval s;
          _last_integration := t;
          _last_auto := t;
          _integral_auto := _integral_auto s;
          _integral_read := _integral_read s;
          _last_val := v;
          _last_delta := _last_delta s;
          _auto_callback := _auto_callback s;
          _coning_comp_on := _coning_comp_on s |};
     put_integral := integral;
     put_integral_dt := integral_dt;
     put_ret := false;
     put_calls := [] |}.
Proof.
  intros H0. unfold put. rewrite H0. reflexivity.
Qed.

(** The reset test of an initialized object, as a proposition. *)
Lemma put_ret_spec (s : Integrator F) t v integral integral_dt :
  _last_integration s <> 0 ->
  put_ret (put s t v integral integral_dt) = true <->
  _auto_reset_interval s < sub64 t (_last_auto s).
Proof.
  intros Hinit. unfold put.
  destruct (Z.eqb_spec (_last_integration s) 0) as [E | _]; [contradiction |].
  destruct (Z.ltb_spec (_auto_reset_interval s) (sub64 t (_last_auto s)));
    simpl; split; intros; try discriminate; try lia; reflexivity.
Qed.

(** What the reset branch of [put] writes. *)
Lemma put_reset_fields (s : Integrator F) t v integral integral_dt :
  _last_integration s <> 0 ->
  put_ret (put s t v integral integral_dt) = true ->
  let r := put s t v integral integral_dt in
  put_integral r = vadd (_integral_auto s) (increment s t v) /\
  put_integral_dt r = sub64 t (_last_auto s) /\
  _integral_auto (put_state r) = vzero /\
  _last_auto (put_state r) = t.
Proof.
  intros Hinit. cbv zeta. put_running s t;
    cbn; intros Hr; [repeat split | discriminate].
Qed.

(** What [put] leaves in place when it integrates without a reset. *)
Lemma put_no_reset_fields (s : Integrator F) t v integral integral_dt :
  _last_integration s <> 0 ->
  put_ret (put s t v integral integral_dt) = false ->
  let r := put s t v integral integral_dt in
  _integral_auto (put_state r) = vadd (_integral_auto s) (increment s t v) /\
  _last_auto (put_state r) = _last_auto s.
Proof.
  intros Hinit. cbv zeta. put_running s t;
    cbn; intros Hr; [discriminate | repeat split].
Qed.

(** C3: the first [put (timestamp, value)] on a freshly constructed
    Integrator stores [timestamp] in [_last_integration] and in
    [_last_auto], stores [value] in [_last_val], integrates nothing (both
    accumulators and [_last_delta] stay the zero vector, no callback
    runs, the output parameters keep their values) and returns [false];
    [get ()] right afterwards returns the zero vector. *)
Theorem first_put_initializes
        (interval : hrt_abstime) (coning : bool) (timestamp : hrt_abstime)
        (value integral : Vector3 F) (integral_dt : Z) :
  let r := put (new interval coning) timestamp value integral integral_dt in
  _last_integration (put_state r) = timestamp /\
  _last_auto (put_state r) = timestamp /\
  _last_val (put_state r) = value /\
  _integral_auto (put_state r) = vzero /\
  _integral_read (put_state r) = vzero /\
  _last_delta (put_state r) = vzero /\
  put_integral r = integral /\
  put_integral_dt r = integral_dt /\
  put_calls r = [] /\
  put_ret r = false /\
  get (put_state r) = vzero.
Proof.
  cbv zeta. rewrite put_uninitialized by reflexivity.
  cbn. repeat split.
Qed.

(** C1, as amended: for every [put (timestamp, value)] on an initialized
    Integrator ([_last_integration <> 0]), [put] returns [true] if and
    only if the unsigned 64-bit difference
    [(timestamp - _last_auto) mod 2^64] is strictly greater than
    [_auto_reset_interval]; when it does, [integral] receives the
    accumulated [_integral_auto] including this call's increment,
    [integral_dt] receives that same difference, [_integral_auto] becomes
    the zero vector and [_last_auto] becomes [timestamp]; otherwise it
    returns [false], and [_integral_auto] keeps the accumulated value and
    [_last_auto] its old value.  The difference is the plain
    [timestamp - _last_auto] whenever both are [uint64_t] values and
    [_last_auto <= timestamp]. *)
Theorem put_auto_reset
        (s : Integrator F) (timestamp : hrt_abstime)
        (value integral : Vector3 F) (integral_dt : Z)
        (Hinit : _last_integration s <> 0) :
  let r := put s timestamp value integral integral_dt in
  let accumulated := vadd (_integral_auto s) (increment s timestamp value) in
  let elapsed := (timestamp - _last_auto s) mod 2 ^ 64 in
  (put_ret r = true <-> elapsed > _auto_reset_interval s) /\
  (put_ret r = true ->
     put_integral r = accumulated /\
     put_integral_dt r = elapsed /\
     _integral_auto (put_state r) = vzero /\
     _last_auto (put_state r) = timestamp) /\
  (put_ret r = false ->
     _integral_auto (put_state r) = accumulated /\
     _last_auto (put_state r) = _last_auto s) /\
  (u64 (_last_auto s) -> u64 timestamp -> _last_auto s <= timestamp ->
     elapsed = timestamp - _last_auto s).
Proof.
  cbv zeta.
  split; [| split; [| split]].
  - rewrite put_ret_spec by assumption. unfold sub64, wrap64, two64. lia.
  - intros Hr.
    exact (put_reset_fields s timestamp value integral integral_dt Hinit Hr).
  - intros Hr.
    exact (put_no_reset_fields s timestamp value integral integral_dt Hinit Hr).
  - unfold u64, two64. intros Hla Hts Hle. apply Z.mod_small. lia.
Qed.

(** Neither the trapezoid nor the coning term reads [_integral_read]. *)
Lemma increment_read_frame (s : Integrator F) (b : bool) t v :
  increment (snd (read s b)) t v = increment s t v.
Proof.
  destruct b; reflexivity.
Qed.

(** C5: [read (true)] returns the current [_integral_read] and sets it
    to the zero vector, leaving [_integral_auto], [_last_auto],
    [_last_integration], [_last_val] and [_last_delta] (and the
    construction parameters) as they were; [read (false)] returns
    [_integral_read] and leaves the whole object as it was; a [put] after
    [read (true)] returns the same value, writes the same outputs and
    leaves the same [_integral_auto], [_last_auto] as it would have
    without the [read], so it accumulates from the prior, non-reset
    value. *)
Theorem read_frame (s : Integrator F) :
  (fst (read s true) = _integral_read s /\
   _integral_read (snd (read s true)) = vzero /\
   _integral_auto (snd (read s true)) = _integral_auto s /\
   _last_auto (snd (read s true)) = _last_auto s /\
   _last_integration (snd (read s true)) = _last_integration s /\
   _last_val (snd (read s true)) = _last_val s /\
   _last_delta (snd (read s true)) = _last_delta s /\
   _auto_reset_interval (snd (read s true)) = _auto_reset_interval s /\
   _auto_callback (snd (read s true)) = _auto_callback s /\
   _coning_comp_on (snd (read s true)) = _coning_comp_on s) /\
  read s false = (_integral_read s, s) /\
  (forall timestamp value integral integral_dt,
     let r := put s timestamp value integral integral_dt in
     let r' := put (snd (read s true)) timestamp value integral integral_dt in
     put_ret r' = put_ret r /\
     put_integral r' = put_integral r /\
     put_integral_dt r' = put_integral_dt r /\
     _integral_auto (put_state r') = _integral_auto (put_state r) /\
     _last_auto (put_state r') = _last_auto (put_state r) /\
     (_last_integration s <> 0 -> put_ret r = false ->
      _integral_auto (put_state r') =
      vadd (_integral_auto s) (increment s timestamp value))).
Proof.
  split; [| split].
  - cbn. repeat split.
  - reflexivity.
  - intros timestamp value integral integral_dt. cbv zeta.
    unfold put. cbn [read snd _last_integration _auto_reset_interval
                     _last_auto _integral_auto _integral_read].
    destruct (Z.eqb_spec (_last_integration s) 0) as [E | NE].
    + cbn. repeat split; intros; contradiction.
    + change (increment
                {| _auto_reset_interval := _auto_reset_interval s;
                   _last_integration := _last_integration s;
                   _last_auto := _last_auto s;
                   _integral_auto := _integral_auto s;
                   _integral_read := vzero;
                   _last_val := _last_val s;
                   _last_delta := _last_delta s;
                   _auto_callback := _auto_callback s;
                   _coning_comp_on := _coning_comp_on s |} timestamp value)
        with (increment s timestamp value).
      destruct (_auto_reset_interval s <? sub64 timestamp (_last_auto s));
        cbn; repeat split; intros; try discriminate; reflexivity.
Qed.

(** C6: a [put] that returns [false] leaves the caller's [integral] and
    [integral_dt] as they were. *)
Theorem put_false_keeps_outputs
        (s : Integrator F) (timestamp : hrt_abstime)
        (value integral : Vector3 F) (integral_dt : Z) :
  put_ret (put s timestamp value integral integral_dt) = false ->
  put_integral (put s timestamp value integral integral_dt) = integral /\
  put_integral_dt (put s timestamp value integral integral_dt) = integral_dt.
Proof.
  unfold put.
  destruct (_last_integration s =? 0); [intros _; split; reflexivity |].
  destruct (_auto_reset_interval s <? sub64 timestamp (_last_auto s));
    cbn; intros Hr; [discriminate | split; reflexivity].
Qed.

(** The fields every integrating [put] writes in the same way. *)
Lemma put_step_fields (s : Integrator F) t v integral integral_dt :
  _last_integration s <> 0 ->
  let r := put s t v integral integral_dt in
  _last_val (put_state r) = v /\
  _last_delta (put_state r) = increment s t v /\
  _last_integration (put_state r) = t /\
  _integral_read (put_state r) = vadd (_integral_read s) (increment s t v) /\
  _auto_reset_interval (put_state r) = _auto_reset_interval s /\
  _auto_callback (put_state r) = _auto_callback s /\
  _coning_comp_on (put_state r) = _coning_comp_on s.
Proof.
  intros Hinit. cbv zeta. put_running s t;
    cbn; repeat split.
Qed.

(** C10, as amended: in a [put] on an initialized Integrator,
    [_last_val], [_last_delta], [_last_integration] and [_integral_read]
    receive the sample, the increment, the time stamp and the accumulated
    sum whether or not the call resets, and the construction parameters
    stay; a reset changes [_integral_auto] (zero vector) and [_last_auto]
    ([timestamp]) only.  Hence, when the time stamp of the resetting call
    is not 0, the next [put] takes its trapezoid from the pre-reset sample
    and time stamp, computes its coning term from the zero
    [_integral_auto] and the pre-reset increment as [_last_delta], and
    adds its increment to the uninterrupted [_integral_read].  The
    increments are written out in the vector operations of lines 133-144. *)
Theorem auto_reset_frame
        (s : Integrator F) (timestamp : hrt_abstime)
        (value integral : Vector3 F) (integral_dt : Z)
        (Hinit : _last_integration s <> 0) :
  let r := put s timestamp value integral integral_dt in
  let tr :=
    vscale (vscale (vadd value (_last_val s))
                   (seconds (sub64 timestamp (_last_integration s))))
           fhalf in
  let i :=
    if _coning_comp_on s
    then vadd tr (vscale (vcross (vadd (_integral_auto s)
                                       (vscale (_last_delta s) fsixth)) tr)
                         fhalf)
    else tr in
  (_last_val (put_state r) = value /\
   _last_delta (put_state r) = i /\
   _last_integration (put_state r) = timestamp /\
   _integral_read (put_state r) = vadd (_integral_read s) i /\
   _auto_reset_interval (put_state r) = _auto_reset_interval s /\
   _auto_callback (put_state r) = _auto_callback s /\
   _coning_comp_on (put_state r) = _coning_comp_on s) /\
  (put_ret r = true ->
   _integral_auto (put_state r) = vzero /\
   _last_auto (put_state r) = timestamp /\
   put_integral r = vadd (_integral_auto s) i /\
   (timestamp <> 0 ->
    forall t' v' o1 o2,
      let r' := put (put_state r) t' v' o1 o2 in
      let tr' :=
        vscale (vscale (vadd v' value) (seconds (sub64 t' timestamp)))
               fhalf in
      let i' :=
        if _coning_comp_on s
        then vadd tr' (vscale (vcross (vadd vzero (vscale i fsixth)) tr')
                              fhalf)
        else tr' in
      _last_delta (put_state r') = i' /\
      _integral_read (put_state r') = vadd (vadd (_integral_read s) i) i' /\
      (put_ret r' = false -> get (put_state r') = vadd vzero i'))).
Proof.
  cbv zeta.
  pose proof (put_step_fields s timestamp value integral integral_dt Hinit)
    as (Hv & Hd & Ht & Hrd & Hi & Hc & Hg).
  change (increment s timestamp value)
    with (if _coning_comp_on s
          then vadd (trapezoid s timestamp value)
                    (coning_term s (trapezoid s timestamp value))
          else trapezoid s timestamp value) in Hd, Hrd.
  unfold coning_term, trapezoid in Hd, Hrd.
  split; [repeat split; assumption |].
  intros Hr.
  destruct (put_reset_fields s timestamp value integral integral_dt Hinit Hr)
    as (Hout & _ & Hz & Ha).
  change (increment s timestamp value)
    with (if _coning_comp_on s
          then vadd (trapezoid s timestamp value)
                    (coning_term s (trapezoid s timestamp value))
          else trapezoid s timestamp value) in Hout.
  unfold coning_term, trapezoid in Hout.
  split; [exact Hz |]. split; [exact Ha |]. split; [exact Hout |].
  intros Hnz t' v' o1 o2.
  set (s' := put_state (put s timestamp value integral integral_dt)) in *.
  assert (Hinit' : _last_integration s' <> 0) by (rewrite Ht; exact Hnz).
  pose proof (put_step_fields s' t' v' o1 o2 Hinit')
    as (_ & Hd' & _ & Hrd' & _).
  assert (Hinc : increment s' t' v'
                 = if _coning_comp_on s
                   then vadd (vscale (vscale (vadd v' value)
                                             (seconds (sub64 t' timestamp)))
                                     fhalf)
                             (vscale
                                (vcross (vadd vzero
                                              (vscale (_last_delta s') fsixth))
                                        (vscale (vscale (vadd v' value)
                                                        (seconds
                                                           (sub64 t' timestamp)))
                                                fhalf))
                                fhalf)
                   else vscale (vscale (vadd v' value)
                                       (seconds (sub64 t' timestamp)))
                               fhalf).
  { unfold increment, coning_term, trapezoid.
    rewrite Hg, Hv, Ht, Hz. reflexivity. }
  rewrite Hinc in Hd', Hrd'. rewrite Hd in Hd', Hrd'.
  split; [exact Hd' |]. split; [rewrite Hrd', Hrd; reflexivity |].
  intros Hr'.
  destruct (put_no_reset_fields s' t' v' o1 o2 Hinit' Hr') as (Hauto' & _).
  unfold get. rewrite Hauto', Hz, Hinc, Hd. reflexivity.
Qed.
End SingleCalls.

(** ** Properties of call sequences *)

Section Sequences.
Context {F : Type} `{Scalar F}.

Lemma step_keeps_callback (s : Integrator F) (c : Call F) :
  _auto_callback (fst (step s c)) = _auto_callback s.
Proof.
  destruct c as [t v o1 o2 | [|] | |]; cbn; try reflexivity.
  put_paths s t; reflexivity.
Qed.

Lemma step_null_callback (s : Integrator F) (c : Call F) :
  _auto_callback s = None -> snd (step s c) = [].
Proof.
  intros Hnull.
  destruct c as [t v o1 o2 | b | |]; cbn; try reflexivity.
  unfold put.
  destruct (_last_integration s =? 0); [reflexivity |].
  destruct (_auto_reset_interval s <? sub64 t (_last_auto s));
    cbn; [rewrite Hnull |]; reflexivity.
Qed.

(** The branch is live in an object whose pointer is set: a resetting
    [put] then makes exactly one call, with the time stamp and the
    accumulated integral. *)
Lemma set_callback_is_invoked (s : Integrator F) f t v o1 o2 :
  _auto_callback s = Some f ->
  _last_integration s <> 0 ->
  put_ret (put s t v o1 o2) = true ->
  put_calls (put s t v o1 o2) =
  [mkCall f t (vadd (_integral_auto s) (increment s t v))].
Proof.
  intros Hf Hinit. put_running s t;
    cbn; intros Hr; [rewrite Hf; reflexivity | discriminate].
Qed.

Lemma run_null_callback (cs : list (Call F)) :
  forall s : Integrator F,
    _auto_callback s = None ->
    snd (run s cs) = [] /\ _auto_callback (fst (run s cs)) = None.
Proof.
  induction cs as [| c cs IH]; intros s Hnull; [split; [reflexivity | exact Hnull] |].
  cbn [run].
  pose proof (step_keeps_callback s c) as Hk.
  pose proof (step_null_callback s c Hnull) as Hs.
  destruct (step s c) as [s1 k1]. cbn in Hk, Hs.
  assert (Hnull1 : _auto_callback s1 = None) by congruence.
  destruct (IH s1 Hnull1) as [Hcalls Hptr].
  destruct (run s1 cs) as [s2 k2]. cbn in *.
  subst k1 k2. split; [reflexivity | exact Hptr].
Qed.

(** C9: whatever sequence of [put], [read], [get] and
    [current_integral_start] calls is made on a constructed Integrator,
    no callback is ever invoked and [_auto_callback] is still [nullptr]
    afterwards: the constructor stores [nullptr] and no member function
    assigns the pointer. *)
Theorem callback_never_invoked
        (interval : hrt_abstime) (coning : bool) (cs : list (Call F)) :
  snd (run (new interval coning) cs) = [] /\
  _auto_callback (fst (run (new interval coning) cs)) = None.
Proof.
  apply run_null_callback. reflexivity.
Qed.

Lemma phase_running (s : Integrator F) :
  phase s = Running <-> _last_integration s <> 0.
Proof.
  unfold phase.
  destruct (Z.eqb_spec (_last_integration s) 0); split; intros;
    try discriminate; try contradiction; auto.
Qed.

Lemma phase_uninitialized (s : Integrator F) :
  phase s = Uninitialized <-> _last_integration s = 0.
Proof.
  unfold phase.
  destruct (Z.eqb_spec (_last_integration s) 0); split; intros;
    try discriminate; try contradiction; auto.
Qed.

(** [put] leaves its time stamp in [_last_integration], in either state. *)
Lemma put_last_integration (s : Integrator F) t v o1 o2 :
  _last_integration (put_state (put s t v o1 o2)) = t.
Proof.
  put_paths s t; reflexivity.
Qed.

Lemma step_phase (s : Integrator F) (c : Call F) :
  match c with
  | CallPut t _ _ _ =>
      phase (fst (step s c)) = if t =? 0 then Uninitialized else Running
  | _ => phase (fst (step s c)) = phase s
  end.
Proof.
  destruct c as [t v o1 o2 | [|] | |]; try reflexivity.
  unfold phase. cbn [step fst]. rewrite put_last_integration. reflexivity.
Qed.

Lemma run_stays_running (cs : list (Call F)) :
  forall s : Integrator F,
    phase s = Running -> Forall nonzero_stamp cs ->
    phase (fst (run s cs)) = Running.
Proof.
  induction cs as [| c cs IH]; intros s Hs Hcs; [exact Hs |].
  inversion Hcs as [| c' cs' Hc Hcs']; subst.
  cbn [run].
  pose proof (step_phase s c) as Hstep.
  destruct (step s c) as [s1 k1]. cbn [fst] in Hstep.
  assert (Hs1 : phase s1 = Running).
  { destruct c as [t v o1 o2 | b | |]; try congruence.
    cbn in Hc. destruct (Z.eqb_spec t 0); [contradiction | exact Hstep]. }
  specialize (IH s1 Hs1 Hcs').
  destruct (run s1 cs) as [s2 k2]. exact IH.
Qed.

(** C8, as amended: an Integrator is uninitialized exactly when
    [_last_integration] is 0 and running exactly when it is not; it is
    constructed uninitialized; [read], [get] and [current_integral_start]
    leave the state as it is; a [put] with the time stamp 0 leaves the
    object uninitialized and a [put] whose time stamp is not 0 leaves it
    running, whatever the state before and the other arguments;
    and a running object stays running through every sequence of calls
    in which no [put] carries the time stamp 0. *)
Theorem running_is_stable
        (interval : hrt_abstime) (coning : bool) (s : Integrator F)
        (timestamp : hrt_abstime) (value integral : Vector3 F)
        (integral_dt : Z) (cs : list (Call F))
        (Hstamp : timestamp <> 0) (Hcs : Forall nonzero_stamp cs) :
  (phase s = Uninitialized <-> _last_integration s = 0) /\
  (phase s = Running <-> _last_integration s <> 0) /\
  phase (new (F:=F) interval coning) = Uninitialized /\
  (forall b, phase (snd (read s b)) = phase s) /\
  phase (put_state (put s 0 value integral integral_dt)) = Uninitialized /\
  phase (put_state (put s timestamp value integral integral_dt)) = Running /\
  phase (fst (run s (CallPut timestamp value integral integral_dt :: cs)))
  = Running.
Proof.
  split; [apply phase_uninitialized |].
  split; [apply phase_running |].
  split; [reflexivity |].
  split; [intros [|]; reflexivity |].
  split; [apply phase_uninitialized, put_last_integration |].
  assert (Hput : phase (put_state (put s timestamp value integral integral_dt))
                 = Running).
  { apply phase_running. rewrite put_last_integration. exact Hstamp. }
  split; [exact Hput |].
  cbn [run step].
  pose proof (run_stays_running _ Hput Hcs) as Hrun.
  destruct (run (put_state (put s timestamp value integral integral_dt)) cs).
  exact Hrun.
Qed.
End Sequences.

(** ** Rounding to nearest: the value of the time step *)

Section Rounding.
Import Binary32 Pow2.

(** The number of binary digits of a mantissa. *)
Lemma digits2_bounds (m : positive) :
  2 ^ (Z.pos (digits2_pos m) - 1) <= Z.pos m < 2 ^ Z.pos (digits2_pos m).
Proof.
  induction m as [m IH | m IH |]; cbn [digits2_pos].
  - rewrite Pos2Z.inj_succ.
    replace (Z.succ (Z.pos (digits2_pos m)) - 1) with (Z.succ (Z.pos (digits2_pos m) - 1)) by lia.
    rewrite !Z.pow_succ_r by lia. lia.
  - rewrite Pos2Z.inj_succ.
    replace (Z.succ (Z.pos (digits2_pos m)) - 1) with (Z.succ (Z.pos (digits2_pos m) - 1)) by lia.
    rewrite !Z.pow_succ_r by lia. lia.
  - cbn. lia.
Qed.

Lemma digits2_unique (m : positive) (D : Z) :
  2 ^ (D - 1) <= Z.pos m < 2 ^ D -> Z.pos (digits2_pos m) = D.
Proof.
  intros [Hlo Hhi].
  pose proof (digits2_bounds m) as [Blo Bhi].
  assert (HD : 0 < D).
  { destruct (Z.ltb_spec 0 D) as [|Hle]; [assumption|].
    exfalso. destruct (Z.eq_dec D 0) as [->|]; [cbn in Hhi; lia|].
    rewrite Z.pow_neg_r in Hhi by lia. lia. }
  destruct (Z.lt_trichotomy (Z.pos (digits2_pos m)) D) as [Hlt | [Heq | Hgt]];
    [| exact Heq |].
  - assert (2 ^ Z.pos (digits2_pos m) <= 2 ^ (D - 1))
      by (apply Z.pow_le_mono_r; lia). lia.
  - assert (2 ^ D <= 2 ^ (Z.pos (digits2_pos m) - 1))
      by (apply Z.pow_le_mono_r; lia). lia.
Qed.

Lemma shr_1_half (mrs : shr_record) :
  0 <= shr_m mrs -> shr_m (shr_1 mrs) = shr_m mrs / 2.
Proof.
  destruct mrs as [m r s]. cbn [shr_m]. intros Hm.
  rewrite <- Z.div2_div.
  destruct m as [| q | q]; [reflexivity | | lia].
  destruct q; reflexivity.
Qed.

Lemma pow2_xI (k : positive) : 2 ^ Z.pos k~1 = 2 * (2 ^ Z.pos k * 2 ^ Z.pos k).
Proof.
  rewrite (Pos2Z.inj_xI k).
  replace (2 * Z.pos k + 1) with (1 + (Z.pos k + Z.pos k)) by lia.
  rewrite Z.pow_add_r, Z.pow_add_r, Z.pow_1_r by lia. reflexivity.
Qed.

Lemma pow2_xO (k : positive) : 2 ^ Z.pos k~0 = 2 ^ Z.pos k * 2 ^ Z.pos k.
Proof.
  rewrite (Pos2Z.inj_xO k).
  replace (2 * Z.pos k) with (Z.pos k + Z.pos k) by lia.
  rewrite Z.pow_add_r by lia. reflexivity.
Qed.

Lemma iter_shr_1_quotient (k : positive) :
  forall mrs, 0 <= shr_m mrs ->
    shr_m (SpecFloat.iter_pos shr_1 k mrs) = shr_m mrs / 2 ^ Z.pos k.
Proof.
  induction k as [k IH | k IH |]; intros mrs Hm; cbn [SpecFloat.iter_pos];
    try assert (Hp : 0 < 2 ^ Z.pos k) by (apply Z.pow_pos_nonneg; lia).
  - assert (H1 : 0 <= shr_m (shr_1 mrs))
      by (rewrite shr_1_half by assumption; apply Z.div_pos; lia).
    assert (H2 : 0 <= shr_m (SpecFloat.iter_pos shr_1 k (shr_1 mrs)))
      by (rewrite IH by assumption; apply Z.div_pos; lia).
    rewrite IH, IH, shr_1_half by assumption.
    rewrite pow2_xI, !Z.div_div by lia. reflexivity.
  - assert (H2 : 0 <= shr_m (SpecFloat.iter_pos shr_1 k mrs))
      by (rewrite IH by assumption; apply Z.div_pos; lia).
    rewrite IH, IH by assumption.
    rewrite pow2_xO, !Z.div_div by lia. reflexivity.
  - rewrite shr_1_half by assumption. reflexivity.
Qed.

Lemma shr_fexp_quotient (p emax m e : Z) (l : location) :
  0 <= m ->
  0 <= fexp p emax (Zdigits2 m + e) - e ->
  snd (shr_fexp p emax m e l) = fexp p emax (Zdigits2 m + e) /\
  shr_m (fst (shr_fexp p emax m e l))
  = m / 2 ^ (fexp p emax (Zdigits2 m + e) - e).
Proof.
  intros Hm Hn. unfold shr_fexp, shr.
  assert (H0 : shr_m (shr_record_of_loc m l) = m) by (destruct l as [| []]; reflexivity).
  destruct (fexp p emax (Zdigits2 m + e) - e) as [| n | n] eqn:En; cbn [fst snd]; [ | | lia].
  - rewrite H0, Z.div_1_r. split; [lia | reflexivity].
  - rewrite iter_shr_1_quotient by (rewrite H0; exact Hm).
    rewrite H0. split; [lia | reflexivity].
Qed.

Lemma round_nearest_even_cases (m : Z) (l : location) :
  round_nearest_even m l = m \/ round_nearest_even m l = m + 1.
Proof.
  unfold round_nearest_even. destruct l as [| []]; auto.
  destruct (Z.even m); auto.
Qed.

Lemma quotient_bounds (m D p : Z) :
  0 < p -> p <= D -> 2 ^ (D - 1) <= m < 2 ^ D ->
  2 ^ (p - 1) <= m / 2 ^ (D - p) < 2 ^ p.
Proof.
  intros Hp HD [Hlo Hhi].
  assert (Hn : 0 < 2 ^ (D - p)) by (apply Z.pow_pos_nonneg; lia).
  assert (E1 : 2 ^ (D - 1) = 2 ^ (p - 1) * 2 ^ (D - p))
    by (rewrite <- Z.pow_add_r by lia; f_equal; lia).
  assert (E2 : 2 ^ D = 2 ^ p * 2 ^ (D - p))
    by (rewrite <- Z.pow_add_r by lia; f_equal; lia).
  split.
  - apply Z.div_le_lower_bound; [exact Hn | lia].
  - apply Z.div_lt_upper_bound; [exact Hn | lia].
Qed.

Lemma fexp_normal (p emax x : Z) :
  3 - emax - p <= x - p -> fexp p emax x = x - p.
Proof.
  unfold fexp, emin. lia.
Qed.

Lemma binary_round_aux_normal (p emax : Z) (s : bool) (m : positive) (e : Z)
      (l : location) :
  0 < p ->
  p <= Z.pos (digits2_pos m) ->
  3 - emax - p <= e + Z.pos (digits2_pos m) - p ->
  e + Z.pos (digits2_pos m) - p + 1 <= emax - p ->
  exists mr er,
    binary_round_aux p emax s (Z.pos m) e l = S754_finite s mr er /\
    2 ^ (p - 1) <= Z.pos mr < 2 ^ p /\
    ((er = e + Z.pos (digits2_pos m) - p /\
      (Z.pos mr = Z.pos m / 2 ^ (Z.pos (digits2_pos m) - p) \/
       Z.pos mr = Z.pos m / 2 ^ (Z.pos (digits2_pos m) - p) + 1)) \/
     (er = e + Z.pos (digits2_pos m) - p + 1 /\
      2 * Z.pos mr = Z.pos m / 2 ^ (Z.pos (digits2_pos m) - p) + 1)).
Proof.
  intros Hp HD Hmin Hmax.
  set (D := Z.pos (digits2_pos m)) in *.
  set (M := Z.pos m / 2 ^ (D - p)).
  pose proof (quotient_bounds Hp HD (digits2_bounds m)) as HM. fold D M in HM.
  assert (Hf1 : fexp p emax (Zdigits2 (Z.pos m) + e) = e + (D - p)).
  { cbn [Zdigits2]. fold D. rewrite fexp_normal by lia. lia. }
  unfold binary_round_aux.
  pose proof (@shr_fexp_quotient p emax (Z.pos m) e l) as H1.
  rewrite Hf1 in H1.
  replace (e + (D - p) - e) with (D - p) in H1 by lia.
  destruct H1 as [He' Hm']; [lia | lia |]. fold M in Hm'.
  destruct (shr_fexp p emax (Z.pos m) e l) as [mrs' e']. cbn [fst snd] in *.
  subst e'.
  set (m1 := round_nearest_even (shr_m mrs') (loc_of_shr_record mrs')).
  assert (Hm1 : m1 = M \/ m1 = M + 1)
    by (subst m1; rewrite <- Hm'; apply round_nearest_even_cases).
  assert (Hpow : 2 ^ p = 2 * 2 ^ (p - 1))
    by (rewrite <- Z.pow_succ_r by lia; f_equal; lia).
  assert (Hpos : 0 < 2 ^ (p - 1)) by (apply Z.pow_pos_nonneg; lia).
  destruct (Z.ltb_spec m1 (2 ^ p)) as [Hlt | Hge].
  - (* no carry *)
    assert (Hm1pos : 0 < m1) by lia.
    destruct m1 as [| q | q] eqn:Eq; try lia.
    assert (Hdq : Z.pos (digits2_pos q) = p) by (apply digits2_unique; lia).
    pose proof (@shr_fexp_quotient p emax (Z.pos q) (e + (D - p)) loc_Exact) as H2.
    cbn [Zdigits2] in H2. rewrite Hdq in H2.
    rewrite fexp_normal in H2 by lia.
    replace (p + (e + (D - p)) - p - (e + (D - p))) with 0 in H2 by lia.
    destruct H2 as [He'' Hm'']; [lia | lia |].
    rewrite Z.div_1_r in Hm''.
    destruct (shr_fexp p emax (Z.pos q) (e + (D - p)) loc_Exact) as [mrs'' e''].
    cbn [fst snd] in *. rewrite Hm''.
    destruct (Z.leb_spec e'' (emax - p)) as [_ | Hbad]; [| lia].
    exists q, e''. split; [reflexivity |]. split; [lia |].
    left. split; [lia |]. fold D M. lia.
  - (* carry: the rounded mantissa is 2^p *)
    assert (Hm1eq : m1 = 2 ^ p) by lia.
    assert (HMeq : M + 1 = 2 ^ p) by lia.
    destruct m1 as [| q | q] eqn:Eq; try lia.
    assert (Hdq : Z.pos (digits2_pos q) = p + 1).
    { apply digits2_unique. replace (p + 1 - 1) with p by lia.
      rewrite Z.pow_add_r, Z.pow_1_r by lia. lia. }
    pose proof (@shr_fexp_quotient p emax (Z.pos q) (e + (D - p)) loc_Exact) as H2.
    cbn [Zdigits2] in H2. rewrite Hdq in H2.
    rewrite fexp_normal in H2 by lia.
    replace (p + 1 + (e + (D - p)) - p - (e + (D - p))) with 1 in H2 by lia.
    destruct H2 as [He'' Hm'']; [lia | lia |].
    rewrite Z.pow_1_r in Hm''.
    destruct (shr_fexp p emax (Z.pos q) (e + (D - p)) loc_Exact) as [mrs'' e''].
    cbn [fst snd] in *. rewrite Hm''.
    assert (Hhalf : Z.pos q / 2 = 2 ^ (p - 1)).
    { rewrite Hm1eq, Hpow. rewrite Z.mul_comm, Z.div_mul by lia. reflexivity. }
    rewrite Hhalf.
    destruct (2 ^ (p - 1)) as [| r | r] eqn:Er; try lia.
    destruct (Z.leb_spec e'' (emax - p)) as [_ | Hbad]; [| lia].
    exists r, e''. split; [reflexivity |]. split; [lia |].
    right. split; [lia |]. fold D M. lia.
Qed.

(** Canonical numbers are valid. *)
Lemma normal_is_valid (p emax : Z) (s : bool) (mr : positive) (er : Z) :
  0 < p ->
  2 ^ (p - 1) <= Z.pos mr < 2 ^ p ->
  3 - emax - p <= er <= emax - p ->
  valid_binary p emax (S754_finite s mr er) = true.
Proof.
  intros Hp Hm He. cbn [valid_binary]. unfold bounded, canonical_mantissa.
  rewrite (@digits2_unique mr p Hm).
  rewrite fexp_normal by lia.
  apply andb_true_intro. split; [apply Z.eqb_eq; lia | apply Z.leb_le; lia].
Qed.

Lemma pow2_pos (e : Z) : (0 < pow2 e)%Q.
Proof. apply Qpower_0_lt. reflexivity. Qed.

Lemma pow2_add (a b : Z) : (pow2 (a + b) == pow2 a * pow2 b)%Q.
Proof. apply Qpower_plus. discriminate. Qed.

Lemma pow2_inject (n : Z) : 0 <= n -> (inject_Z (2 ^ n) == pow2 n)%Q.
Proof. intros Hn. unfold pow2. rewrite Zpower_Qpower by exact Hn. reflexivity. Qed.

(** The core inequality: a value [x] and a rounded value [v] in the same
    cell [[M a, (M + 1) a]] with [M >= K] and [K u = 1]. *)
Lemma same_cell (x v a mq K u : Q) :
  (0 < a)%Q -> (0 < u)%Q -> (K * u == 1)%Q -> (K <= mq)%Q ->
  (mq * a <= x)%Q -> (x <= (mq + 1) * a)%Q ->
  (v == mq * a \/ v == (mq + 1) * a)%Q ->
  (x * (1 - u) <= v /\ v <= x * (1 + u))%Q.
Proof.
  intros Ha Hu HK HM Hlo Hhi Hv.
  assert (Hau : (a <= x * u)%Q).
  { assert (H1 : (K * a * u <= x * u)%Q).
    { apply Qmult_le_compat_r; [| lra].
      apply Qle_trans with (mq * a)%Q; [| exact Hlo].
      apply Qmult_le_compat_r; lra. }
    assert (H2 : (K * a * u == a)%Q).
    { transitivity ((K * u) * a)%Q; [ring | rewrite HK; ring]. }
    rewrite H2 in H1. exact H1. }
  destruct Hv as [Hv | Hv]; rewrite Hv; split; lra.
Qed.

Lemma rounding_relative (p : Z) (m : positive) (e : Z) (mr : positive) (er : Z)
      (x : Q) :
  0 < p ->
  p <= Z.pos (digits2_pos m) ->
  ((er = e + Z.pos (digits2_pos m) - p /\
    (Z.pos mr = Z.pos m / 2 ^ (Z.pos (digits2_pos m) - p) \/
     Z.pos mr = Z.pos m / 2 ^ (Z.pos (digits2_pos m) - p) + 1)) \/
   (er = e + Z.pos (digits2_pos m) - p + 1 /\
    2 * Z.pos mr = Z.pos m / 2 ^ (Z.pos (digits2_pos m) - p) + 1)) ->
  (inject_Z (Z.pos m) * pow2 e <= x)%Q ->
  (x <= inject_Z (Z.pos m + 1) * pow2 e)%Q ->
  (x * (1 - pow2 (1 - p)) <= inject_Z (Z.pos mr) * pow2 er /\
   inject_Z (Z.pos mr) * pow2 er <= x * (1 + pow2 (1 - p)))%Q.
Proof.
  intros Hp HD Hcases Hlo Hhi.
  set (D := Z.pos (digits2_pos m)) in *.
  set (n := D - p) in *.
  set (M := Z.pos m / 2 ^ n) in *.
  pose proof (quotient_bounds Hp HD (digits2_bounds m)) as HM. fold D n M in HM.
  assert (Hn : 0 < 2 ^ n) by (apply Z.pow_pos_nonneg; subst n; lia).
  assert (Hfloor : M * 2 ^ n <= Z.pos m)
    by (subst M; rewrite Z.mul_comm; apply Z.mul_div_le; exact Hn).
  assert (Hceil : Z.pos m + 1 <= (M + 1) * 2 ^ n).
  { pose proof (Z.mul_succ_div_gt (Z.pos m) (2 ^ n) Hn) as H. fold M in H. lia. }
  assert (Ha : (pow2 (e + n) == pow2 e * inject_Z (2 ^ n))%Q)
    by (rewrite pow2_add, pow2_inject by (subst n; lia); reflexivity).
  apply same_cell with (a := pow2 (e + n)) (mq := inject_Z M)
                       (K := inject_Z (2 ^ (p - 1))).
  - apply pow2_pos.
  - apply pow2_pos.
  - rewrite pow2_inject by lia. rewrite <- pow2_add.
    replace (p - 1 + (1 - p)) with 0 by lia. reflexivity.
  - rewrite <- Zle_Qle. lia.
  - apply Qle_trans with (inject_Z (Z.pos m) * pow2 e)%Q; [| exact Hlo].
    rewrite Ha.
    setoid_replace (inject_Z M * (pow2 e * inject_Z (2 ^ n)))%Q
      with (inject_Z (M * 2 ^ n) * pow2 e)%Q
      by (rewrite inject_Z_mult; ring).
    apply Qmult_le_compat_r; [| apply Qlt_le_weak, pow2_pos].
    rewrite <- Zle_Qle. exact Hfloor.
  - apply Qle_trans with (inject_Z (Z.pos m + 1) * pow2 e)%Q; [exact Hhi |].
    rewrite Ha.
    setoid_replace ((inject_Z M + 1) * (pow2 e * inject_Z (2 ^ n)))%Q
      with (inject_Z ((M + 1) * 2 ^ n) * pow2 e)%Q
      by (rewrite inject_Z_mult, inject_Z_plus; ring).
    apply Qmult_le_compat_r; [| apply Qlt_le_weak, pow2_pos].
    rewrite <- Zle_Qle. exact Hceil.
  - destruct Hcases as [[-> [Hm | Hm]] | [-> Hm]].
    + left. replace (e + D - p) with (e + n) by (subst n; lia).
      rewrite Hm. reflexivity.
    + right. replace (e + D - p) with (e + n) by (subst n; lia).
      rewrite Hm, inject_Z_plus. reflexivity.
    + right. replace (e + D - p + 1) with (e + n + 1) by (subst n; lia).
      rewrite (pow2_add (e + n) 1).
      setoid_replace (inject_Z M + 1)%Q with (inject_Z (2 * Z.pos mr))%Q
        by (rewrite Hm, inject_Z_plus; reflexivity).
      rewrite inject_Z_mult. change (pow2 1) with 2%Q.
      change (inject_Z 2) with 2%Q. ring.
Qed.

Lemma iter_xO_value (m d : positive) :
  Z.pos (Pos.iter xO m d) = Z.pos m * 2 ^ Z.pos d.
Proof.
  induction d as [| d IH] using Pos.peano_ind.
  - cbn [Pos.iter]. rewrite Z.pow_1_r. lia.
  - rewrite Pos.iter_succ, Pos2Z.inj_xO, IH, (Pos2Z.inj_succ d).
    rewrite Z.pow_succ_r by lia. lia.
Qed.

Lemma binary_round_normal (p emax : Z) (s : bool) (m : positive) (e : Z) :
  0 < p ->
  3 - emax - p <= e + Z.pos (digits2_pos m) - p ->
  e + Z.pos (digits2_pos m) - p + 1 <= emax - p ->
  exists mr er,
    binary_round p emax s m e = S754_finite s mr er /\
    2 ^ (p - 1) <= Z.pos mr < 2 ^ p /\
    e + Z.pos (digits2_pos m) - p <= er <= e + Z.pos (digits2_pos m) - p + 1 /\
    (inject_Z (Z.pos m) * pow2 e * (1 - pow2 (1 - p))
     <= inject_Z (Z.pos mr) * pow2 er /\
     inject_Z (Z.pos mr) * pow2 er
     <= inject_Z (Z.pos m) * pow2 e * (1 + pow2 (1 - p)))%Q.
Proof.
  intros Hp Hmin Hmax.
  set (D := Z.pos (digits2_pos m)) in *.
  unfold binary_round.
  assert (Hf : fexp p emax (Z.pos (digits2_pos m) + e) = e + D - p)
    by (fold D; rewrite fexp_normal by lia; lia).
  rewrite Hf. unfold shl_align.
  destruct (e + D - p - e) as [| k | k] eqn:Ek.
  - (* exactly p digits *)
    destruct (@binary_round_aux_normal p emax s m e loc_Exact Hp)
      as (mr & er & Heq & Hcan & Hcases); fold D; try lia.
    exists mr, er. split; [exact Heq |]. split; [exact Hcan |].
    split; [fold D in Hcases; lia |].
    apply (@rounding_relative p m e mr er); try assumption; fold D; try lia.
    + apply Qle_refl.
    + apply Qmult_le_compat_r; [| apply Qlt_le_weak, pow2_pos].
      rewrite <- Zle_Qle. lia.
  - (* more than p digits *)
    destruct (@binary_round_aux_normal p emax s m e loc_Exact Hp)
      as (mr & er & Heq & Hcan & Hcases); fold D; try lia.
    exists mr, er. split; [exact Heq |]. split; [exact Hcan |].
    split; [fold D in Hcases; lia |].
    apply (@rounding_relative p m e mr er); try assumption; fold D; try lia.
    + apply Qle_refl.
    + apply Qmult_le_compat_r; [| apply Qlt_le_weak, pow2_pos].
      rewrite <- Zle_Qle. lia.
  - (* fewer than p digits: the mantissa is first shifted to the left *)
    assert (Hk : Z.pos k = p - D) by lia.
    pose proof (iter_xO_value m k) as Hval.
    pose proof (digits2_bounds m) as [Blo Bhi]. fold D in Blo, Bhi.
    set (mz := Pos.iter xO m k) in *.
    assert (Hdz : Z.pos (digits2_pos mz) = p).
    { apply digits2_unique. rewrite Hval, Hk.
      replace (2 ^ (p - 1)) with (2 ^ (D - 1) * 2 ^ (p - D))
        by (rewrite <- Z.pow_add_r by lia; f_equal; lia).
      replace (2 ^ p) with (2 ^ D * 2 ^ (p - D))
        by (rewrite <- Z.pow_add_r by lia; f_equal; lia).
      assert (0 < 2 ^ (p - D)) by (apply Z.pow_pos_nonneg; lia).
      split; [apply Z.mul_le_mono_nonneg_r; lia
             | apply Z.mul_lt_mono_pos_r; lia]. }
    destruct (@binary_round_aux_normal p emax s mz (e + D - p) loc_Exact Hp)
      as (mr & er & Heq & Hcan & Hcases); rewrite ?Hdz; try lia.
    exists mr, er. split; [exact Heq |]. split; [exact Hcan |].
    split; [rewrite Hdz in Hcases; lia |].
    assert (Hx : (inject_Z (Z.pos m) * pow2 e
                  == inject_Z (Z.pos mz) * pow2 (e + D - p))%Q).
    { rewrite Hval, inject_Z_mult, pow2_inject by lia.
      rewrite Hk.
      setoid_replace (pow2 e) with (pow2 (p - D) * pow2 (e + D - p))%Q;
        [ring |].
      rewrite <- pow2_add. replace (p - D + (e + D - p)) with e by lia.
      reflexivity. }
    rewrite Hx.
    apply (@rounding_relative p mz (e + D - p) mr er); try assumption;
      rewrite ?Hdz; try lia.
    + apply Qle_refl.
    + apply Qmult_le_compat_r; [| apply Qlt_le_weak, pow2_pos].
      rewrite <- Zle_Qle. lia.
Qed.

(** [(double) d] for [1 <= d < 2^64]. *)
Lemma double_of_Z_spec (d : Z) :
  1 <= d < 2 ^ 64 ->
  exists m1 e1,
    double_of_Z d = S754_finite false m1 e1 /\
    2 ^ 52 <= Z.pos m1 < 2 ^ 53 /\
    -52 <= e1 <= 12 /\
    (inject_Z d * (1 - pow2 (-52)) <= inject_Z (Z.pos m1) * pow2 e1 /\
     inject_Z (Z.pos m1) * pow2 e1 <= inject_Z d * (1 + pow2 (-52)))%Q.
Proof.
  intros [Hlo Hhi].
  destruct d as [| dp | dp]; try lia.
  unfold double_of_Z, binary_normalize.
  pose proof (digits2_bounds dp) as [Blo Bhi].
  assert (HD : 1 <= Z.pos (digits2_pos dp) <= 64).
  { split; [lia |].
    destruct (Z.leb_spec (Z.pos (digits2_pos dp)) 64) as [H | H]; [exact H |].
    assert (2 ^ 64 <= 2 ^ (Z.pos (digits2_pos dp) - 1))
      by (apply Z.pow_le_mono_r; lia). lia. }
  destruct (@binary_round_normal dprec demax false dp 0)
    as (m1 & e1 & Heq & Hcan & He & Hrel);
    unfold dprec, demax; try lia.
  unfold dprec, demax in *.
  exists m1, e1. split; [exact Heq |]. split; [exact Hcan |].
  split; [lia |].
  change (pow2 0) with 1%Q in Hrel. change (1 - 53) with (-52) in Hrel.
  rewrite !Qmult_1_r in Hrel. exact Hrel.
Qed.

(** Division of a [double] by [1000000.0]. *)
Lemma div_million_spec (m1 : positive) (e1 : Z) :
  2 ^ 52 <= Z.pos m1 < 2 ^ 53 ->
  -52 <= e1 <= 12 ->
  exists mq eq,
    SFdiv dprec demax (S754_finite false m1 e1) (double_of_Z 1000000)
    = S754_finite false mq eq /\
    2 ^ 52 <= Z.pos mq < 2 ^ 53 /\
    e1 - 20 <= eq <= e1 - 18 /\
    (inject_Z (Z.pos m1) * pow2 e1 * (1 # 1000000) * (1 - pow2 (-52))
     <= inject_Z (Z.pos mq) * pow2 eq /\
     inject_Z (Z.pos mq) * pow2 eq
     <= inject_Z (Z.pos m1) * pow2 e1 * (1 # 1000000) * (1 + pow2 (-52)))%Q.
Proof.
  intros Hm1 He1.
  assert (Hy : double_of_Z 1000000 = S754_finite false 8589934592000000 (-33))
    by (vm_compute; reflexivity).
  rewrite Hy. unfold SFdiv, SFdiv_core_binary. cbn [xorb].
  assert (Hd1 : Zdigits2 (Z.pos m1) = 53)
    by (cbn [Zdigits2]; apply digits2_unique; exact Hm1).
  assert (Hd2 : Zdigits2 (Z.pos 8589934592000000) = 53) by reflexivity.
  rewrite Hd1, Hd2.
  assert (He' : Z.min (fexp dprec demax (53 + e1 - (53 + -33))) (e1 - -33)
                = e1 - 20).
  { unfold dprec, demax. rewrite fexp_normal by lia. lia. }
  rewrite He'.
  replace (e1 - -33 - (e1 - 20)) with 53 by lia.
  cbv iota beta zeta.
  rewrite Z.shiftl_mul_pow2 by lia.
  pose proof (Z_div_mod (Z.pos m1 * 2 ^ 53) (Z.pos 8589934592000000) eq_refl)
    as Hdiv.
  destruct (Z.div_eucl (Z.pos m1 * 2 ^ 53) (Z.pos 8589934592000000)) as [q r].
  destruct Hdiv as [Hqr Hr].
  assert (Hq : 2 ^ 52 <= q < 2 ^ 54).
  { change (2 ^ 52) with 4503599627370496 in *.
    change (2 ^ 53) with 9007199254740992 in *.
    change (2 ^ 54) with 18014398509481984. lia. }
  destruct q as [| qp | qp]; try lia.
  pose proof (digits2_bounds qp) as [Blo Bhi].
  assert (Hdq : 53 <= Z.pos (digits2_pos qp) <= 54).
  { split.
    - destruct (Z.leb_spec 53 (Z.pos (digits2_pos qp))) as [H | H]; [exact H |].
      assert (2 ^ Z.pos (digits2_pos qp) <= 2 ^ 52)
        by (apply Z.pow_le_mono_r; lia). lia.
    - destruct (Z.leb_spec (Z.pos (digits2_pos qp)) 54) as [H | H]; [exact H |].
      assert (2 ^ 54 <= 2 ^ (Z.pos (digits2_pos qp) - 1))
        by (apply Z.pow_le_mono_r; lia). lia. }
  destruct (@binary_round_aux_normal dprec demax false qp (e1 - 20)
              (new_location (Z.pos 8589934592000000) r))
    as (mq & eq & Heq & Hcan & Hcases); unfold dprec, demax; try lia.
  exists mq, eq. split; [exact Heq |]. split; [exact Hcan |].
  split; [unfold dprec in Hcases; lia |].
  change (-52) with (1 - dprec).
  apply (@rounding_relative dprec qp (e1 - 20) mq eq);
    unfold dprec; try lia; try exact Hcases.
  - (* the quotient is below the exact value *)
    setoid_replace (pow2 e1) with (pow2 (e1 - 20) * inject_Z (2 ^ 20))%Q
      by (rewrite pow2_inject, <- pow2_add by lia;
          replace (e1 - 20 + 20) with e1 by lia; reflexivity).
    setoid_replace (inject_Z (Z.pos m1) * (pow2 (e1 - 20) * inject_Z (2 ^ 20))
                    * (1 # 1000000))%Q
      with (inject_Z (Z.pos m1 * 2 ^ 20) * (1 # 1000000) * pow2 (e1 - 20))%Q
      by (rewrite inject_Z_mult; ring).
    apply Qmult_le_compat_r; [| apply Qlt_le_weak, pow2_pos].
    unfold Qle, Qmult, inject_Z. cbn [Qnum Qden].
    change (2 ^ 20) with 1048576. change (2 ^ 53) with 9007199254740992 in *.
    lia.
  - setoid_replace (pow2 e1) with (pow2 (e1 - 20) * inject_Z (2 ^ 20))%Q
      by (rewrite pow2_inject, <- pow2_add by lia;
          replace (e1 - 20 + 20) with e1 by lia; reflexivity).
    setoid_replace (inject_Z (Z.pos m1) * (pow2 (e1 - 20) * inject_Z (2 ^ 20))
                    * (1 # 1000000))%Q
      with (inject_Z (Z.pos m1 * 2 ^ 20) * (1 # 1000000) * pow2 (e1 - 20))%Q
      by (rewrite inject_Z_mult; ring).
    apply Qmult_le_compat_r; [| apply Qlt_le_weak, pow2_pos].
    unfold Qle, Qmult, inject_Z. cbn [Qnum Qden].
    change (2 ^ 20) with 1048576. change (2 ^ 53) with 9007199254740992 in *.
    lia.
Qed.

(** The time step of [d] microseconds is a [float] within one part in
    2^22 of [d / 1000000]. *)
Lemma seconds32_spec (d : Z) :
  1 <= d < 2 ^ 64 ->
  exists mf ef,
    seconds32 d = S754_finite false mf ef /\
    valid_binary prec emax (seconds32 d) = true /\
    (inject_Z d * (1 # 1000000) * (1 - (1 # 4194304))
     < inject_Z (Z.pos mf) * pow2 ef /\
     inject_Z (Z.pos mf) * pow2 ef
     < inject_Z d * (1 # 1000000) * (1 + (1 # 4194304)))%Q.
Proof.
  intros Hd.
  destruct (double_of_Z_spec Hd) as (m1 & e1 & E1 & C1 & X1 & [L1 U1]).
  destruct (div_million_spec C1 X1) as (mq & eq & E2 & C2 & X2 & [L2 U2]).
  unfold seconds32. rewrite E1, E2. cbn [float_of_double].
  assert (Hdq : Z.pos (digits2_pos mq) = 53) by (apply digits2_unique; exact C2).
  destruct (@binary_round_normal prec emax false mq eq)
    as (mf & ef & E3 & C3 & X3 & [L3 U3]);
    rewrite ?Hdq; try (unfold prec, emax; lia).
  rewrite E3. exists mf, ef. split; [reflexivity |].
  split.
  - apply normal_is_valid; unfold prec, emax in *; try lia; try exact C3.
  - unfold prec in L3, U3. change (1 - 24) with (-23) in L3, U3.
    change (pow2 (-23)) with (1 # 8388608)%Q in L3, U3.
    change (pow2 (-52)) with (1 # 4503599627370496)%Q in L1, U1, L2, U2.
    assert (Hpos : (0 < inject_Z d)%Q)
      by (change 0%Q with (inject_Z 0); rewrite <- Zlt_Qlt; lia).
    set (x0 := inject_Z d) in *.
    set (x1 := (inject_Z (Z.pos m1) * pow2 e1)%Q) in *.
    set (x2 := (inject_Z (Z.pos mq) * pow2 eq)%Q) in *.
    set (x3 := (inject_Z (Z.pos mf) * pow2 ef)%Q) in *.
    split; nra.
Qed.
End Rounding.

(** ** Properties in [float] arithmetic *)

Section FloatArithmetic.
Import Binary32 Scenario Pow2.

(** IEEE addition commutes. *)
Lemma SFadd_comm (x y : float) :
  SFadd prec emax x y = SFadd prec emax y x.
Proof.
  destruct x as [sx | sx | | sx mx ex], y as [sy | sy | | sy my ey];
    try reflexivity;
    try (destruct sx, sy; reflexivity).
  unfold SFadd. rewrite (Z.min_comm ex ey).
  f_equal. apply Z.add_comm.
Qed.

Lemma vadd_comm (a b : Vector3 float) : vadd a b = vadd b a.
Proof.
  unfold vadd. cbn [fadd binary32].
  rewrite (SFadd_comm (vx a)), (SFadd_comm (vy a)), (SFadd_comm (vz a)).
  reflexivity.
Qed.

(** [0.0f + x] is [x], up to the sign of a zero. *)
Lemma SFadd_zero_l (x : float) :
  same_value (SFadd prec emax (S754_zero false) x) x.
Proof.
  destruct x as [[|] | sx | | sx mx ex]; cbn; auto.
Qed.

Lemma vadd_zero_l (a : Vector3 float) : vsame (vadd vzero a) a.
Proof.
  unfold vsame, vadd, vzero. cbn [vx vy vz fadd f0 binary32].
  repeat split; apply SFadd_zero_l.
Qed.

(** The constant [0.5f] is one half. *)
Lemma fhalf_is_one_half :
  exists h : Q, value fhalf = Some h /\ (h == 1 # 2)%Q.
Proof.
  eexists. split; [vm_compute; reflexivity | reflexivity].
Qed.

(** C2: with coning compensation disabled, after [put (t0, v0)] on a
    fresh Integrator has initialized it ([t0] is not the sentinel 0) and
    [put (t1, v1)] with [t1 > t0] has returned [false], [get ()] has the
    value of the one trapezoid [(v0 + v1) * dt * 0.5f].  Here [0.5f] is
    one half, and [dt], computed as [(double)(t1 - t0) / 1000000.0] and
    passed to [operator*(float)], is a [float] (24-bit mantissa, in
    range) whose value lies within one part in 2^22 of the real number
    [(t1 - t0) / 1000000].  [get ()] and the trapezoid agree component by
    component as IEEE values; the only bit that can differ is the sign of
    a zero component, since [get ()] returns [0.0f + i]. *)
Theorem two_samples_one_trapezoid
        (interval t0 t1 : hrt_abstime) (v0 v1 integral : Vector3 float)
        (integral_dt : Z)
        (Ht0 : 0 < t0) (Ht1 : t0 < t1) (Hu64 : t1 < 2 ^ 64) :
  let r0 := put (new interval false) t0 v0 integral integral_dt in
  let r1 := put (put_state r0) t1 v1 (put_integral r0) (put_integral_dt r0) in
  let dt := seconds32 (t1 - t0) in
  put_ret r1 = false ->
  vsame (get (put_state r1)) (vscale (vscale (vadd v0 v1) dt) fhalf) /\
  valid_binary prec emax dt = true /\
  between (micro (t1 - t0) * (1 - (1 # 4194304)))
          (micro (t1 - t0) * (1 + (1 # 4194304))) dt /\
  (exists h : Q, value fhalf = Some h /\ (h == 1 # 2)%Q).
Proof.
  cbv zeta.
  rewrite (put_uninitialized (new interval false) t0 v0 integral integral_dt)
    by reflexivity.
  cbn [put_state put_integral put_integral_dt].
  match goal with
  | |- put_ret (put ?st _ _ _ _) = _ -> _ => set (s := st)
  end.
  intros Hret.
  assert (Hinit : _last_integration s <> 0) by (subst s; cbn; lia).
  destruct (put_no_reset_fields s t1 v1 integral integral_dt Hinit Hret)
    as [Hauto _].
  split; [| split; [| split]].
  - unfold get. rewrite Hauto.
    replace (increment s t1 v1)
      with (vscale (vscale (vadd v0 v1) (seconds32 (t1 - t0))) fhalf).
    + apply vadd_zero_l.
    + unfold increment, trapezoid. subst s.
      cbn [_coning_comp_on new _last_val _last_integration seconds binary32].
      rewrite sub64_monotone by (unfold two64; lia).
      rewrite (vadd_comm v0 v1). reflexivity.
  - assert (Hd : 1 <= t1 - t0 < 2 ^ 64) by lia.
    destruct (seconds32_spec Hd) as (mf & ef & _ & Hvalid & _).
    exact Hvalid.
  - assert (Hd : 1 <= t1 - t0 < 2 ^ 64) by lia.
    destruct (seconds32_spec Hd) as (mf & ef & Heq & _ & Hlo & Hhi).
    rewrite Heq. unfold between, value. split; [exact Hlo | exact Hhi].
  - exact fhalf_is_one_half.
Qed.

(** C4, as amended: on [Integrator (4000, false)] the calls
    [put (1000, (0,0,0))], [put (5000, (2,0,0))], [put (5001, (2,0,0))]
    return [false], [false], [true].  The second call adds the increment
    (0.004, 0, 0) (the [float] nearest to 0.004, within 1e-9) and does not
    reset, the window being 4000 us long, which is not more than 4000.
    The third call resets: it reports [integral_dt = 4001] and the
    integral (0.004002, 0, 0) (within 1e-9: 0.004 plus the third
    trapezoid (2 + 2) * 0.000001 * 0.5 = 0.000002), and [get ()] is the
    zero vector afterwards.  Without rounding the reported integral is
    2001/500000 = 0.004002 exactly. *)
Theorem scenario_interval_4000 :
  put_ret call1 = false /\ put_ret call2 = false /\ put_ret call3 = true /\
  sub64 5000 (_last_auto (put_state call1)) = 4000 /\
  increment (put_state call1) 5000 (vec3 2 0 0)
  = mkVector3 (S754_finite false 8589935 (-31))
              (S754_zero false) (S754_zero false) /\
  get (put_state call2)
  = mkVector3 (S754_finite false 8589935 (-31))
              (S754_zero false) (S754_zero false) /\
  between (3999999 # 1000000000) (4000001 # 1000000000)
          (S754_finite false 8589935 (-31)) /\
  put_integral_dt call3 = 4001 /\
  put_integral call3
  = mkVector3 (S754_finite false 8594230 (-31))
              (S754_zero false) (S754_zero false) /\
  between (4001999 # 1000000000) (4002001 # 1000000000)
          (S754_finite false 8594230 (-31)) /\
  get (put_state call3) = vzero /\
  (vx (put_integral qcall3) == 2001 # 500000)%Q /\
  (vy (put_integral qcall3) == 0)%Q /\
  (vz (put_integral qcall3) == 0)%Q.
Proof.
  repeat match goal with |- _ /\ _ => split end;
    try (vm_compute; reflexivity);
    unfold between; vm_compute; split; reflexivity.
Qed.

(** C4, as stated, fails: the integral reported by the third call is
    not within 0.000001 of 0.0040005, neither in [float] arithmetic (it
    is larger than 0.0040015) nor without rounding. *)
Lemma scenario_integral_is_not_0_0040005 :
  ~ between (39995 # 10000000) (40015 # 10000000) (vx (put_integral call3)) /\
  ~ (vx (put_integral qcall3) == 40005 # 10000000)%Q.
Proof.
  split.
  - unfold between. vm_compute. intros [_ Hhi]. discriminate Hhi.
  - intros E. vm_compute in E. discriminate E.
Qed.


(** C1, as stated, fails for a time stamp earlier than [_last_auto]:
    on an initialized object with [_last_auto = 5000] and
    [_auto_reset_interval = 4000], [put (4000, ...)] returns [true] and
    reports [integral_dt = 2^64 - 1000], although 4000 - 5000 is not
    greater than 4000. *)
Lemma put_resets_on_earlier_timestamp :
  _last_integration started_at_5000 <> 0 /\
  _last_auto started_at_5000 = 5000 /\
  _auto_reset_interval started_at_5000 = 4000 /\
  put_integral_dt (put started_at_5000 4000 unit_x vzero 0) = 2 ^ 64 - 1000 /\
  ~ (put_ret (put started_at_5000 4000 unit_x vzero 0) = true <->
     4000 - _last_auto started_at_5000 > _auto_reset_interval started_at_5000).
Proof.
  repeat match goal with |- _ /\ _ => split end;
    try (vm_compute; reflexivity).
  - vm_compute. discriminate.
  - intros [Hto _].
    assert (Hret : put_ret (put started_at_5000 4000 unit_x vzero 0) = true)
      by (vm_compute; reflexivity).
    specialize (Hto Hret). vm_compute in Hto. discriminate Hto.
Qed.

(** C8, as stated, fails for the time stamp 0: the first [put (0, ...)]
    on a fresh Integrator leaves it uninitialized, and [put (0, ...)] on
    a running Integrator returns it to the uninitialized state. *)
Lemma put_at_zero_is_uninitialized :
  phase (put_state (put fresh 0 unit_x vzero 0)) <> Running /\
  phase (fst (run fresh [CallPut 1000 unit_x vzero 0])) = Running /\
  phase (fst (run fresh [CallPut 1000 unit_x vzero 0;
                         CallPut 0 unit_x vzero 0])) <> Running.
Proof.
  split; [| split]; vm_compute; congruence.
Qed.

(** C10, as stated, fails when the resetting call carries the time stamp
    0: on the object whose window started at 5000, [put (0, (1,0,0))]
    resets (the difference wraps to 2^64 - 5000) and stores the sentinel
    0 in [_last_integration]; the next call [put (7000, (1,0,0))] then
    takes the initializing branch: it leaves [_integral_read] and
    [_last_delta] as they were instead of adding the trapezoid
    [((1,0,0) + (1,0,0)) * 0.007 * 0.5f] taken from the pre-reset sample. *)
Lemma reset_at_zero_restarts :
  _last_integration started_at_5000 <> 0 /\
  put_ret (put started_at_5000 0 unit_x vzero 0) = true /\
  _last_val (put_state (put started_at_5000 0 unit_x vzero 0)) = unit_x /\
  _integral_read
    (put_state (put (put_state (put started_at_5000 0 unit_x vzero 0))
                    7000 unit_x vzero 0))
  = _integral_read (put_state (put started_at_5000 0 unit_x vzero 0)) /\
  _last_delta
    (put_state (put (put_state (put started_at_5000 0 unit_x vzero 0))
                    7000 unit_x vzero 0))
  = _last_delta (put_state (put started_at_5000 0 unit_x vzero 0)) /\
  _last_delta
    (put_state (put (put_state (put started_at_5000 0 unit_x vzero 0))
                    7000 unit_x vzero 0))
  <> vscale (vscale (vadd unit_x unit_x) (seconds (sub64 7000 0))) fhalf.
Proof.
  repeat match goal with |- _ /\ _ => split end;
    try (vm_compute; reflexivity).
  - vm_compute. discriminate.
  - intros E. apply (f_equal vx) in E. vm_compute in E. discriminate E.
Qed.
End FloatArithmetic.

(** ** Properties in arithmetic without rounding *)

Section ExactArithmetic.
Context {F : Type} {HS : Scalar F} {HE : @ExactArith F HS}.

Lemma fmul_0_r (x : F) : fmul x f0 = f0.
Proof.
  rewrite fmul_comm. apply fmul_0_l.
Qed.

(** [(p * a) * (q * b) = (q * a) * (p * b)]: the two products of a
    component of the cross product of parallel vectors. *)
Lemma fmul_swap (p q a b : F) :
  fmul (fmul p a) (fmul q b) = fmul (fmul q a) (fmul p b).
Proof.
  rewrite (fmul_assoc (fmul p a) q b), (fmul_assoc (fmul q a) p b).
  f_equal.
  rewrite <- (fmul_assoc p a q), <- (fmul_assoc q a p).
  rewrite (fmul_comm a q), (fmul_comm a p).
  rewrite (fmul_assoc p q a), (fmul_assoc q p a).
  rewrite (fmul_comm p q). reflexivity.
Qed.

Lemma multiple_vzero (d : Vector3 F) : multiple_of d vzero.
Proof.
  exists f0. unfold vscale, vzero. rewrite !fmul_0_r. reflexivity.
Qed.

Lemma multiple_vadd (d a b : Vector3 F) :
  multiple_of d a -> multiple_of d b -> multiple_of d (vadd a b).
Proof.
  intros [x ->] [y ->]. exists (fadd x y).
  unfold vadd, vscale. cbn [vx vy vz].
  rewrite !fmul_add_distr_l. reflexivity.
Qed.

Lemma multiple_vscale (d a : Vector3 F) (k : F) :
  multiple_of d a -> multiple_of d (vscale a k).
Proof.
  intros [x ->]. exists (fmul x k).
  unfold vscale. cbn [vx vy vz].
  rewrite !fmul_assoc. reflexivity.
Qed.

(** The cross product of two multiples of one direction is zero. *)
Lemma vcross_parallel (d a b : Vector3 F) :
  multiple_of d a -> multiple_of d b -> vcross a b = vzero.
Proof.
  intros [x ->] [y ->].
  unfold vcross, vscale, vzero. cbn [vx vy vz].
  rewrite (fmul_swap (vy d) (vz d) x y), (fmul_swap (vz d) (vx d) x y),
    (fmul_swap (vx d) (vy d) x y).
  rewrite !fsub_diag. reflexivity.
Qed.

Lemma trapezoid_along (d : Vector3 F) (s : Integrator F) t v :
  along d s -> multiple_of d v -> multiple_of d (trapezoid s t v).
Proof.
  intros (_ & _ & Hval) Hv. unfold trapezoid.
  apply multiple_vscale, multiple_vscale, multiple_vadd; assumption.
Qed.

(** On parallel data the increment is the trapezoid, with or without
    coning compensation. *)
Lemma increment_along (d : Vector3 F) (s : Integrator F) t v :
  along d s -> multiple_of d v -> increment s t v = trapezoid s t v.
Proof.
  intros Hs Hv. unfold increment.
  destruct (_coning_comp_on s); [| reflexivity].
  unfold coning_term.
  rewrite (@vcross_parallel d).
  - unfold vscale, vadd, vzero. cbn [vx vy vz].
    rewrite !fmul_0_l, !fadd_0_r.
    destruct (trapezoid s t v); reflexivity.
  - destruct Hs as (Hauto & Hdelta & _).
    apply multiple_vadd; [exact Hauto | apply multiple_vscale; exact Hdelta].
  - apply trapezoid_along; assumption.
Qed.

Lemma trapezoid_twin (a b : Integrator F) t v :
  same_but_coning a b -> trapezoid a t v = trapezoid b t v.
Proof.
  intros (_ & Hli & _ & _ & _ & Hlv & _). unfold trapezoid.
  rewrite Hli, Hlv. reflexivity.
Qed.

(** One [put] on two objects that differ in the coning flag only, when
    the increments agree. *)
Lemma put_twin (a b : Integrator F) t v o1 o2 :
  same_but_coning a b ->
  increment a t v = increment b t v ->
  observe (put a t v o1 o2) = observe (put b t v o1 o2) /\
  put_integral (put a t v o1 o2) = put_integral (put b t v o1 o2) /\
  put_integral_dt (put a t v o1 o2) = put_integral_dt (put b t v o1 o2) /\
  same_but_coning (put_state (put a t v o1 o2)) (put_state (put b t v o1 o2)).
Proof.
  intros (Hi & Hli & Hla & Hia & Hir & Hlv & Hld & Hcb) Hinc.
  unfold put, observe, same_but_coning, get.
  rewrite Hi, Hli, Hla, Hia, Hir, Hld, Hcb, Hinc.
  destruct (_last_integration b =? 0).
  - cbn. repeat split; reflexivity.
  - destruct (_auto_reset_interval b <? sub64 t (_last_auto b));
      cbn; repeat split; reflexivity.
Qed.

(** [put] keeps the accumulated vectors along [d]. *)
Lemma put_along (d : Vector3 F) (s : Integrator F) t v o1 o2 :
  along d s -> multiple_of d v -> along d (put_state (put s t v o1 o2)).
Proof.
  intros Hs Hv.
  assert (Hinc : multiple_of d (increment s t v)).
  { rewrite (increment_along t Hs Hv). apply trapezoid_along; assumption. }
  destruct Hs as (Hauto & Hdelta & Hval).
  unfold put, along.
  destruct (_last_integration s =? 0); [cbn; auto |].
  destruct (_auto_reset_interval s <? sub64 t (_last_auto s)); cbn.
  - split; [apply multiple_vzero | auto].
  - split; [apply multiple_vadd; assumption | auto].
Qed.

Lemma put_all_twin (d : Vector3 F) (samples : list (hrt_abstime * Vector3 F)) :
  forall (a b : Integrator F) o1 o2,
    same_but_coning a b -> along d a -> along d b ->
    Forall (fun sample => multiple_of d (snd sample)) samples ->
    put_all a samples o1 o2 = put_all b samples o1 o2.
Proof.
  induction samples as [| [t v] rest IH]; intros a b o1 o2 Hab Ha Hb Hall;
    [reflexivity |].
  inversion Hall as [| x l Hv Hrest]; subst. cbn [snd] in Hv.
  assert (Hinc : increment a t v = increment b t v).
  { rewrite (increment_along t Ha Hv), (increment_along t Hb Hv).
    apply trapezoid_twin. exact Hab. }
  destruct (put_twin t v o1 o2 Hab Hinc) as (Hobs & Ho1 & Ho2 & Hab').
  cbn [put_all]. rewrite Hobs, Ho1, Ho2.
  f_equal.
  apply IH; [exact Hab' | apply put_along; assumption
             | apply put_along; assumption | exact Hrest].
Qed.

(** The idealized algorithm: were the scalar arithmetic exact (no
    rounding: the operations obeying the laws of a commutative ring, which
    [float] does not), then for every sequence of samples that are all
    scalar multiples of one direction vector, coning compensation would
    change nothing, the coning term being the zero vector at every call.
    The statement about the [float] arithmetic of the source is
    [coning_is_noop_on_axis]. *)
Theorem coning_is_noop_on_parallel_samples
        (interval : hrt_abstime) (d : Vector3 F)
        (samples : list (hrt_abstime * Vector3 F))
        (integral : Vector3 F) (integral_dt : Z)
        (Hparallel : Forall (fun sample => multiple_of d (snd sample)) samples) :
  put_all (new interval true) samples integral integral_dt =
  put_all (new interval false) samples integral integral_dt.
Proof.
  apply (@put_all_twin d); [| | | exact Hparallel].
  - repeat split.
  - repeat split; apply multiple_vzero.
  - repeat split; apply multiple_vzero.
Qed.

(** Without rounding the value of [get ()] after two samples is the
    trapezoid itself. *)
Lemma two_samples_one_trapezoid_exact
      (Hadd_0_l : forall x : F, fadd f0 x = x)
      (Hadd_comm : forall x y : F, fadd x y = fadd y x)
      (interval t0 t1 : hrt_abstime) (v0 v1 integral : Vector3 F)
      (integral_dt : Z) :
  0 < t0 -> t0 < t1 -> t1 < 2 ^ 64 ->
  let r0 := put (new interval false) t0 v0 integral integral_dt in
  let r1 := put (put_state r0) t1 v1 (put_integral r0) (put_integral_dt r0) in
  put_ret r1 = false ->
  get (put_state r1) = vscale (vscale (vadd v0 v1) (seconds (t1 - t0))) fhalf.
Proof.
  intros Ht0 Ht1 Hu64. cbv zeta.
  rewrite (put_uninitialized (new interval false) t0 v0 integral integral_dt)
    by reflexivity.
  cbn [put_state put_integral put_integral_dt].
  match goal with
  | |- put_ret (put ?st _ _ _ _) = _ -> _ => set (s := st)
  end.
  intros Hret.
  assert (Hinit : _last_integration s <> 0) by (subst s; cbn; lia).
  destruct (put_no_reset_fields s t1 v1 integral integral_dt Hinit Hret)
    as [Hauto _].
  unfold get. rewrite Hauto.
  unfold increment, trapezoid. subst s.
  cbn [_coning_comp_on new _last_val _last_integration _integral_auto].
  rewrite sub64_monotone by (unfold two64; lia).
  unfold vadd, vscale, vzero. cbn [vx vy vz].
  rewrite !Hadd_0_l, (Hadd_comm (vx v1)), (Hadd_comm (vy v1)),
    (Hadd_comm (vz v1)).
  reflexivity.
Qed.
End ExactArithmetic.

(** The rationals are an exact arithmetic. *)
#[export] Instance exact_arith : @ExactArith Qc Exact.exact.
Proof.
  split; cbn.
  - apply Qcplus_0_r.
  - apply Qcmult_0_l.
  - intros x. apply Qcplus_opp_r.
  - apply Qcmult_comm.
  - apply Qcmult_assoc.
  - apply Qcmult_plus_distr_r.
Qed.

(** ** The theorems at concrete inputs *)

Section Instances.
Import Binary32 Exact Scenario.

(** [put (9001, (1,0,0))] on the object whose window started at 5000
    resets: 4001 > 4000. *)
Lemma put_auto_reset_at_9001 :
  _last_integration started_at_5000 <> 0 /\
  let r := put started_at_5000 9001 unit_x vzero 0 in
  let accumulated :=
    vadd (_integral_auto started_at_5000)
         (increment started_at_5000 9001 unit_x) in
  let elapsed := (9001 - _last_auto started_at_5000) mod 2 ^ 64 in
  (put_ret r = true <-> elapsed > _auto_reset_interval started_at_5000) /\
  (put_ret r = true ->
     put_integral r = accumulated /\
     put_integral_dt r = elapsed /\
     _integral_auto (put_state r) = vzero /\
     _last_auto (put_state r) = 9001) /\
  (put_ret r = false ->
     _integral_auto (put_state r) = accumulated /\
     _last_auto (put_state r) = _last_auto started_at_5000) /\
  (u64 (_last_auto started_at_5000) -> u64 9001 ->
   _last_auto started_at_5000 <= 9001 ->
     elapsed = 9001 - _last_auto started_at_5000).
Proof.
  assert (Hinit : _last_integration started_at_5000 <> 0)
    by (vm_compute; discriminate).
  split; [exact Hinit |].
  exact (put_auto_reset started_at_5000 9001 unit_x vzero 0 Hinit).
Defined.

(** Samples (1,0,0) at 1000 us and (2,3,4) at 3000 us. *)
Lemma two_samples_one_trapezoid_at_1000_3000 :
  0 < 1000 /\ 1000 < 3000 /\ 3000 < 2 ^ 64 /\
  put_ret (put (put_state (put (new 4000 false) 1000 unit_x vzero 0))
               3000 (vec3 2 3 4)
               (put_integral (put (new 4000 false) 1000 unit_x vzero 0))
               (put_integral_dt (put (new 4000 false) 1000 unit_x vzero 0)))
  = false /\
  vsame (get (put_state
                (put (put_state (put (new 4000 false) 1000 unit_x vzero 0))
                     3000 (vec3 2 3 4)
                     (put_integral (put (new 4000 false) 1000 unit_x vzero 0))
                     (put_integral_dt
                        (put (new 4000 false) 1000 unit_x vzero 0)))))
        (vscale (vscale (vadd unit_x (vec3 2 3 4)) (seconds32 (3000 - 1000)))
                fhalf) /\
  valid_binary prec emax (seconds32 (3000 - 1000)) = true /\
  between (Pow2.micro (3000 - 1000) * (1 - (1 # 4194304)))
          (Pow2.micro (3000 - 1000) * (1 + (1 # 4194304)))
          (seconds32 (3000 - 1000)) /\
  (exists h : Q, value fhalf = Some h /\ (h == 1 # 2)%Q).
Proof.
  assert (H0 : 0 < 1000) by lia.
  assert (H1 : 1000 < 3000) by lia.
  assert (H2 : 3000 < 2 ^ 64) by (vm_compute; reflexivity).
  assert (Hret :
            put_ret
              (put (put_state (put (new 4000 false) 1000 unit_x vzero 0))
                   3000 (vec3 2 3 4)
                   (put_integral (put (new 4000 false) 1000 unit_x vzero 0))
                   (put_integral_dt
                      (put (new 4000 false) 1000 unit_x vzero 0)))
            = false) by (vm_compute; reflexivity).
  repeat (split; [assumption |]).
  exact (two_samples_one_trapezoid 4000 unit_x (vec3 2 3 4) vzero 0
                                   H0 H1 H2 Hret).
Defined.

(** [read] on the object left by the second call of the scenario. *)
Lemma read_frame_after_call2 :
  fst (read (put_state call2) true) = _integral_read (put_state call2) /\
  read (put_state call2) false
  = (_integral_read (put_state call2), put_state call2) /\
  _last_integration (put_state call2) <> 0 /\
  put_ret (put (put_state call2) 5001 (vec3 2 0 0) vzero 0) = true /\
  _integral_auto
    (put_state (put (snd (read (put_state call2) true))
                    5001 (vec3 2 0 0) vzero 0))
  = _integral_auto (put_state (put (put_state call2) 5001 (vec3 2 0 0) vzero 0)).
Proof.
  destruct (read_frame (put_state call2)) as ((Hfst & _) & Hfalse & Hput).
  split; [exact Hfst |]. split; [exact Hfalse |].
  split; [vm_compute; discriminate |].
  split; [vm_compute; reflexivity |].
  destruct (Hput 5001 (vec3 2 0 0) vzero 0) as (_ & _ & _ & Hauto & _).
  exact Hauto.
Defined.

(** The second call of the scenario returns [false]. *)
Lemma put_false_keeps_outputs_call2 :
  put_ret (put (put_state call1) 5000 (vec3 2 0 0) (vec3 7 8 9) 42) = false /\
  put_integral (put (put_state call1) 5000 (vec3 2 0 0) (vec3 7 8 9) 42)
  = vec3 7 8 9 /\
  put_integral_dt (put (put_state call1) 5000 (vec3 2 0 0) (vec3 7 8 9) 42)
  = 42.
Proof.
  assert (Hret :
            put_ret (put (put_state call1) 5000 (vec3 2 0 0) (vec3 7 8 9) 42)
            = false) by (vm_compute; reflexivity).
  split; [exact Hret |].
  exact (put_false_keeps_outputs (put_state call1) 5000 (vec3 2 0 0)
                                 (vec3 7 8 9) 42 Hret).
Defined.

(** Four samples along (1, 2, 3) on the rationals. *)
Lemma coning_is_noop_on_qsamples :
  Forall (fun sample => multiple_of qdirection (snd sample)) qsamples /\
  put_all (new 4000 true) qsamples vzero 0 =
  put_all (new 4000 false) qsamples vzero 0.
Proof.
  assert (Hpar : Forall (fun sample => multiple_of qdirection (snd sample))
                        qsamples).
  { unfold qsamples.
    repeat (apply Forall_cons; [eexists; reflexivity |]).
    apply Forall_nil. }
  split; [exact Hpar |].
  exact (coning_is_noop_on_parallel_samples (HE := exact_arith)
           4000 vzero 0 Hpar).
Defined.

(** A first [put] at 1000 us followed by a read, a second [put] and a
    [get]. *)
Lemma running_is_stable_from_fresh :
  1000 <> 0 /\
  Forall nonzero_stamp
         [CallRead true; CallPut 2000 unit_x vzero 0; CallGet (F:=float)] /\
  phase (put_state (put fresh 1000 unit_x vzero 0)) = Running /\
  phase (fst (run fresh [CallPut 1000 unit_x vzero 0; CallRead true;
                         CallPut 2000 unit_x vzero 0; CallGet]))
  = Running.
Proof.
  assert (Hstamp : 1000 <> 0) by discriminate.
  assert (Hcs : Forall nonzero_stamp
                       [CallRead true; CallPut 2000 unit_x vzero 0;
                        CallGet (F:=float)]).
  { repeat (apply Forall_cons; [cbn; try discriminate; exact I |]).
    apply Forall_nil. }
  split; [exact Hstamp |]. split; [exact Hcs |].
  destruct (running_is_stable 4000 false fresh unit_x vzero 0 Hstamp Hcs)
    as (_ & _ & _ & _ & _ & Hput & Hrun).
  split; [exact Hput | exact Hrun].
Defined.

(** The resetting [put (9001, (1,0,0))] on the object whose window
    started at 5000, followed by [put (9500, (0,1,0))]. *)
Lemma auto_reset_frame_at_9001 :
  _last_integration started_at_5000 <> 0 /\
  put_ret (put started_at_5000 9001 unit_x vzero 0) = true /\
  9001 <> 0 /\
  _last_val (put_state (put started_at_5000 9001 unit_x vzero 0)) = unit_x /\
  _last_delta (put_state (put started_at_5000 9001 unit_x vzero 0))
  = vscale (vscale (vadd unit_x (_last_val started_at_5000))
                   (seconds (sub64 9001 (_last_integration started_at_5000))))
           fhalf /\
  _integral_auto (put_state (put started_at_5000 9001 unit_x vzero 0)) = vzero /\
  _integral_read
    (put_state (put (put_state (put started_at_5000 9001 unit_x vzero 0))
                    9500 (vec3 0 1 0) vzero 0))
  = vadd (vadd (_integral_read started_at_5000)
               (vscale (vscale (vadd unit_x (_last_val started_at_5000))
                               (seconds
                                  (sub64 9001
                                         (_last_integration started_at_5000))))
                       fhalf))
         (vscale (vscale (vadd (vec3 0 1 0) unit_x) (seconds (sub64 9500 9001)))
                 fhalf).
Proof.
  assert (Hinit : _last_integration started_at_5000 <> 0)
    by (vm_compute; discriminate).
  assert (Hret : put_ret (put started_at_5000 9001 unit_x vzero 0) = true)
    by (vm_compute; reflexivity).
  assert (Hnz : 9001 <> 0) by discriminate.
  split; [exact Hinit |]. split; [exact Hret |]. split; [exact Hnz |].
  destruct (auto_reset_frame started_at_5000 9001 unit_x vzero 0 Hinit)
    as ((Hv & Hd & _) & Hreset).
  destruct (Hreset Hret) as (Hz & _ & _ & Hnext).
  destruct (Hnext Hnz 9500 (vec3 0 1 0) vzero 0) as (_ & Hrd' & _).
  split; [exact Hv |]. split; [exact Hd |]. split; [exact Hz |].
  exact Hrd'.
Defined.
End Instances.

(** ** Further properties of [put] over a stream of samples *)

Section FeedingFacts.
Context {F : Type} `{Scalar F}.

(** [put] never reads what the caller's [integral] and [integral_dt] hold:
    the object it leaves, its return value and its callback invocations
    do not depend on them, and when it resets neither do the values it
    writes to them. *)
Theorem put_ignores_outputs
        (s : Integrator F) (timestamp : hrt_abstime) (value : Vector3 F)
        (integral integral' : Vector3 F) (integral_dt integral_dt' : Z) :
  let r := put s timestamp value integral integral_dt in
  let r' := put s timestamp value integral' integral_dt' in
  put_state r = put_state r' /\
  put_ret r = put_ret r' /\
  put_calls r = put_calls r' /\
  (put_ret r = true ->
   put_integral r = put_integral r' /\ put_integral_dt r = put_integral_dt r').
Proof.
  cbv zeta. put_paths s timestamp; cbn; repeat split; intros; discriminate.
Qed.

Lemma put_keeps_parameters (s : Integrator F) t v o1 o2 :
  _auto_reset_interval (put_state (put s t v o1 o2)) = _auto_reset_interval s /\
  _coning_comp_on (put_state (put s t v o1 o2)) = _coning_comp_on s.
Proof.
  put_paths s t; cbn; split; reflexivity.
Qed.

(** The two constructor arguments are fixed for the life of the object:
    no sequence of [put], [read], [get] and [current_integral_start]
    calls changes [_auto_reset_interval] or [_coning_comp_on]. *)
Theorem parameters_are_immutable (cs : list (Call F)) :
  forall s : Integrator F,
    _auto_reset_interval (fst (run s cs)) = _auto_reset_interval s /\
    _coning_comp_on (fst (run s cs)) = _coning_comp_on s.
Proof.
  induction cs as [| c cs IH]; intros s; [split; reflexivity |].
  cbn [run].
  assert (Hstep : _auto_reset_interval (fst (step s c)) = _auto_reset_interval s /\
                  _coning_comp_on (fst (step s c)) = _coning_comp_on s).
  { destruct c as [t v o1 o2 | [|] | |]; cbn [step fst snd read];
      try (split; reflexivity).
    apply put_keeps_parameters. }
  destruct (step s c) as [s1 k1]. cbn [fst] in Hstep.
  specialize (IH s1). destruct (run s1 cs) as [s2 k2]. cbn [fst] in *.
  destruct IH as [IHi IHc], Hstep as [Hi Hc].
  split; congruence.
Qed.

(** One [put] with a time stamp that does not run backwards keeps the
    stored time stamps ordered and the open window within the interval. *)
Lemma put_well_timed (s : Integrator F) t v o1 o2 :
  well_timed s -> _last_integration s <= t < two64 ->
  well_timed (put_state (put s t v o1 o2)).
Proof.
  unfold well_timed. intros (Hord & Hmax & Hwin) Ht.
  assert (Hsub : sub64 t (_last_auto s) = t - _last_auto s)
    by (apply sub64_monotone; lia).
  unfold put.
  destruct (_last_integration s =? 0);
    [cbn [put_state _last_auto _last_integration _auto_reset_interval]; lia |].
  destruct (Z.ltb_spec (_auto_reset_interval s) (sub64 t (_last_auto s)));
    cbn [put_state _last_auto _last_integration _auto_reset_interval]; lia.
Qed.

Lemma feed_well_timed (samples : list (hrt_abstime * Vector3 F)) :
  forall s : Integrator F,
    well_timed s -> stamps_sorted (_last_integration s) samples ->
    well_timed (feed s samples).
Proof.
  induction samples as [| [t v] rest IH]; intros s Hs Hsorted; [exact Hs |].
  destruct Hsorted as [Ht Hrest]. cbn [feed].
  apply IH.
  - apply put_well_timed; assumption.
  - rewrite put_last_integration. exact Hrest.
Qed.

(** Fed with [uint64_t] time stamps that never run backwards, an
    Integrator constructed with a non-negative interval always has
    [0 <= _last_auto <= _last_integration < 2^64], and after every [put]
    the open window [_last_integration - _last_auto] is at most
    [_auto_reset_interval]. *)
Theorem window_never_exceeds_interval
        (interval : hrt_abstime) (coning : bool)
        (samples : list (hrt_abstime * Vector3 F))
        (Hinterval : 0 <= interval)
        (Hsorted : stamps_sorted 0 samples) :
  well_timed (feed (new interval coning) samples).
Proof.
  apply feed_well_timed; [| exact Hsorted].
  unfold well_timed, two64. cbn. lia.
Qed.

(** With time stamps that never run backwards, the [integral_dt] values
    handed out by the resetting calls each exceed the interval and add up
    to the distance [_last_auto] has moved: the published windows tile the
    time axis without gap or overlap. *)
Theorem published_windows_tile_time
        (samples : list (hrt_abstime * Vector3 F)) :
  forall s : Integrator F,
    well_timed s -> _last_integration s <> 0 ->
    stamps_sorted (_last_integration s) samples ->
    zsum (map snd (published s samples))
    = _last_auto (feed s samples) - _last_auto s /\
    Forall (fun report => _auto_reset_interval s < snd report)
           (published s samples).
Proof.
  induction samples as [| [t v] rest IH]; intros s Hs Hinit Hsorted.
  - cbn. split; [lia | constructor].
  - destruct Hsorted as [Ht Hrest]. cbn [feed published].
    pose proof (put_well_timed v vzero 0 Hs Ht) as Hs'.
    pose proof (put_last_integration s t v vzero 0) as Hli.
    pose proof (put_keeps_parameters s t v vzero 0) as [Hint _].
    destruct Hs as (Hord & Hmax & Hwin).
    assert (Hinit' : _last_integration (put_state (put s t v vzero 0)) <> 0)
      by (rewrite Hli; lia).
    rewrite <- Hli in Hrest.
    destruct (IH _ Hs' Hinit' Hrest) as [IHsum IHall].
    rewrite Hint in IHall.
    assert (Hsub : sub64 t (_last_auto s) = t - _last_auto s)
      by (apply sub64_monotone; lia).
    destruct (put_ret (put s t v vzero 0)) eqn:Hret.
    + destruct (put_reset_fields s t v vzero 0 Hinit Hret)
        as (_ & Hdt & _ & Hla).
      pose proof (proj1 (put_ret_spec s t v vzero 0 Hinit) Hret) as Hgt.
      cbn [app map snd].
      change (zsum (?a :: ?l)) with (a + zsum l).
      rewrite IHsum, Hdt, Hla, Hsub.
      split; [lia |].
      constructor; [cbn [snd]; lia | exact IHall].
    + destruct (put_no_reset_fields s t v vzero 0 Hinit Hret) as (_ & Hla).
      cbn [app]. rewrite IHsum, Hla.
      split; [reflexivity | exact IHall].
Qed.

(** Until the first reset, and as long as nobody calls [read (true)],
    both accumulators hold the same vector: if no call of a stream
    resets, [get ()] and [read (false)] agree after it whenever they
    agreed before. *)
Theorem accumulators_agree_without_reset
        (samples : list (hrt_abstime * Vector3 F)) :
  forall s : Integrator F,
    published s samples = [] ->
    _integral_auto s = _integral_read s ->
    get (feed s samples) = fst (read (feed s samples) false).
Proof.
  induction samples as [| [t v] rest IH]; intros s Hnone Heq; [exact Heq |].
  cbn [feed published] in *.
  destruct (put_ret (put s t v vzero 0)) eqn:Hret; [discriminate Hnone |].
  apply IH; [exact Hnone |].
  revert Hret. put_paths s t; cbn; intros Hret;
    try discriminate; congruence.
Qed.

(** An interval of [UINT64_MAX] (or more) switches the auto-reset off: no
    [put] ever returns [true], whatever the time stamps. *)
Theorem maximal_interval_never_resets
        (samples : list (hrt_abstime * Vector3 F)) :
  forall s : Integrator F,
    two64 - 1 <= _auto_reset_interval s ->
    published s samples = [] /\
    forall timestamp value integral integral_dt,
      put_ret (put (feed s samples) timestamp value integral integral_dt)
      = false.
Proof.
  assert (Hone : forall (s : Integrator F) t v o1 o2,
             two64 - 1 <= _auto_reset_interval s ->
             put_ret (put s t v o1 o2) = false).
  { intros s t v o1 o2 Hmax. unfold put.
    destruct (_last_integration s =? 0); [reflexivity |].
    destruct (Z.ltb_spec (_auto_reset_interval s) (sub64 t (_last_auto s)))
      as [Hlt | _]; [| reflexivity].
    exfalso. unfold sub64, wrap64 in Hlt.
    pose proof (Z.mod_pos_bound (t - _last_auto s) two64) as Hb.
    unfold two64 in *. lia. }
  induction samples as [| [t v] rest IH]; intros s Hmax.
  - split; [reflexivity |]. intros. apply Hone. exact Hmax.
  - cbn [feed published]. rewrite (Hone s t v vzero 0 Hmax). cbn [app].
    apply IH.
    destruct (put_keeps_parameters s t v vzero 0) as [Hint _].
    rewrite Hint. exact Hmax.
Qed.
End FeedingFacts.

(** ** Edge cases in [float] arithmetic *)

Section FloatEdges.
Import Binary32 FloatClass32.

(** Shifting a non-negative mantissa to the right keeps it non-negative. *)
Lemma shr_1_nonneg (mrs : shr_record) :
  0 <= shr_m mrs -> 0 <= shr_m (shr_1 mrs).
Proof.
  destruct mrs as [m r s]. cbn [shr_m].
  destruct m as [| p | p]; intros Hm; [cbn; lia | | lia].
  destruct p; cbn; lia.
Qed.

Lemma iter_shr_1_nonneg (p : positive) :
  forall mrs, 0 <= shr_m mrs -> 0 <= shr_m (SpecFloat.iter_pos shr_1 p mrs).
Proof.
  induction p as [p IH | p IH |]; intros mrs Hm; cbn [SpecFloat.iter_pos].
  - apply IH, IH, shr_1_nonneg, Hm.
  - apply IH, IH, Hm.
  - apply shr_1_nonneg, Hm.
Qed.

Lemma shr_fexp_nonneg (p e : Z) (m ex : Z) (l : location) :
  0 <= m -> 0 <= shr_m (fst (shr_fexp p e m ex l)).
Proof.
  intros Hm. unfold shr_fexp, shr.
  assert (H0 : 0 <= shr_m (shr_record_of_loc m l))
    by (destruct l as [| []]; exact Hm).
  destruct (fexp p e (Zdigits2 m + ex) - ex) as [| n | n]; cbn [fst];
    [exact H0 | | exact H0].
  apply iter_shr_1_nonneg, H0.
Qed.

Lemma round_nearest_even_nonneg (m : Z) (l : location) :
  0 <= m -> 0 <= round_nearest_even m l.
Proof.
  intros Hm. unfold round_nearest_even.
  destruct l as [| []]; [lia | | lia | lia].
  destruct (Z.even m); lia.
Qed.

(** Rounding a non-negative mantissa gives a zero, a finite number or an
    infinity with the requested sign. *)
Lemma binary_round_aux_sign (p e : Z) (sx : bool) (m ex : Z) (l : location) :
  0 <= m ->
  match binary_round_aux p e sx m ex l with
  | S754_zero s | S754_infinity s | S754_finite s _ _ => s = sx
  | S754_nan => False
  end.
Proof.
  intros Hm. unfold binary_round_aux.
  pose proof (shr_fexp_nonneg p e ex l Hm) as H1.
  destruct (shr_fexp p e m ex l) as [mrs' e']. cbn [fst] in H1.
  pose proof (shr_fexp_nonneg p e e' loc_Exact
                (round_nearest_even_nonneg (loc_of_shr_record mrs') H1)) as H2.
  destruct (shr_fexp p e (round_nearest_even (shr_m mrs')
                            (loc_of_shr_record mrs')) e' loc_Exact)
    as [mrs'' e''].
  cbn [fst] in H2.
  destruct (shr_m mrs'') as [| q | q]; [reflexivity | | lia].
  destruct (e'' <=? e - p); reflexivity.
Qed.

Lemma binary_round_sign (p e : Z) (sx : bool) (m : positive) (ex : Z) :
  match binary_round p e sx m ex with
  | S754_zero s | S754_infinity s | S754_finite s _ _ => s = sx
  | S754_nan => False
  end.
Proof.
  unfold binary_round.
  destruct (shl_align m ex (fexp p e (Z.pos (digits2_pos m) + ex))) as [mz ez].
  apply binary_round_aux_sign. lia.
Qed.

(** A number that is neither negative nor a NaN. *)
Lemma non_negative_cases (x : float) :
  match x with
  | S754_zero s | S754_infinity s | S754_finite s _ _ => s = false
  | S754_nan => False
  end ->
  ~ negative x /\ x <> S754_nan.
Proof.
  destruct x as [[|] | [|] | | [|] m e]; cbn; intros Hs;
    try discriminate Hs; try contradiction; split; auto; discriminate.
Qed.

Lemma double_of_Z_sign (d : Z) :
  0 <= d ->
  match double_of_Z d with
  | S754_zero s | S754_infinity s | S754_finite s _ _ => s = false
  | S754_nan => False
  end.
Proof.
  intros Hd. unfold double_of_Z, binary_normalize.
  destruct d as [| q | q]; [reflexivity | apply binary_round_sign | lia].
Qed.

Lemma SFdiv_core_nonneg (p e : Z) (m1 : positive) (e1 : Z) (m2 : positive)
      (e2 : Z) :
  0 <= fst (fst (SFdiv_core_binary p e (Z.pos m1) e1 (Z.pos m2) e2)).
Proof.
  unfold SFdiv_core_binary.
  set (sh := e1 - e2 - _).
  set (m' := match sh with
             | 0 => Z.pos m1
             | Z.pos _ => Z.shiftl (Z.pos m1) sh
             | Z.neg _ => 0
             end).
  assert (Hm' : 0 <= m').
  { subst m'. destruct sh; [lia | | lia].
    apply Z.shiftl_nonneg. lia. }
  pose proof (Z_div_mod m' (Z.pos m2) eq_refl) as Hdiv.
  destruct (Z.div_eucl m' (Z.pos m2)) as [q r]. cbn [fst].
  destruct Hdiv as [Heq Hr]. nia.
Qed.

Lemma seconds32_sign (d : Z) :
  0 <= d ->
  match seconds32 d with
  | S754_zero s | S754_infinity s | S754_finite s _ _ => s = false
  | S754_nan => False
  end.
Proof.
  intros Hd. unfold seconds32.
  pose proof (double_of_Z_sign Hd) as Hx.
  assert (Hy : double_of_Z 1000000 = S754_finite false 8589934592000000 (-33))
    by (vm_compute; reflexivity).
  rewrite Hy.
  destruct (double_of_Z d) as [sx | sx | | sx mx ex]; try contradiction;
    subst sx; cbn [SFdiv xorb float_of_double]; try reflexivity.
  pose proof (SFdiv_core_nonneg dprec demax mx ex 8589934592000000 (-33))
    as Hq.
  destruct (SFdiv_core_binary dprec demax (Z.pos mx) ex
                              (Z.pos 8589934592000000) (-33))
    as [[mz ez] lz].
  cbn [fst] in Hq.
  pose proof (binary_round_aux_sign dprec demax false ez lz Hq) as Hr.
  destruct (binary_round_aux dprec demax false mz ez lz)
    as [s | s | | s m e]; try contradiction; subst s;
    cbn [float_of_double]; try reflexivity.
  apply binary_round_sign.
Qed.

(** The time step [dt] of a [put] is never negative and never a NaN,
    whatever the two time stamps: a time stamp that runs backwards wraps
    around to a large positive difference. *)
Theorem time_step_is_never_negative (timestamp last_integration : hrt_abstime) :
  ~ negative (seconds (sub64 timestamp last_integration)) /\
  seconds (sub64 timestamp last_integration) <> S754_nan.
Proof.
  apply non_negative_cases. cbn [seconds binary32].
  apply seconds32_sign.
  unfold sub64, wrap64.
  apply Z.mod_pos_bound. reflexivity.
Qed.

Lemma fhalf_value : @fhalf float binary32 = S754_finite false 8388608 (-24).
Proof.
  vm_compute. reflexivity.
Qed.

(** Adding a zero changes no value. *)
Lemma SFadd_zero_r (x z : float) :
  zero z -> same_value (SFadd prec emax x z) x.
Proof.
  destruct z as [sz | | |]; try contradiction. intros _.
  destruct x as [[|] | sx | | sx mx ex], sz; cbn; auto.
Qed.

Lemma same_value_sym (x y : float) : same_value x y -> same_value y x.
Proof.
  destruct x, y; cbn; auto.
Qed.

Lemma same_value_trans (x y z : float) :
  same_value x y -> same_value y z -> same_value x z.
Proof.
  destruct x, y; cbn; intros Hxy Hyz; try discriminate Hxy;
    try (rewrite Hxy; exact Hyz); destruct z; cbn in *; auto; discriminate.
Qed.

(** [0.0f + x] and [0.0f + y] are the same value when [x] and [y] are. *)
Lemma SFadd_zero_l_same (x y : float) :
  same_value x y ->
  same_value (SFadd prec emax (S754_zero false) x)
             (SFadd prec emax (S754_zero false) y).
Proof.
  intros Hxy.
  apply same_value_trans with (y := x); [apply SFadd_zero_l |].
  apply same_value_trans with (y := y); [exact Hxy |].
  apply same_value_sym, SFadd_zero_l.
Qed.

(** A finite number times a zero, halved, is a zero. *)
Lemma zero_step_component (w : float) :
  finite w ->
  zero (fmul (fmul w (S754_zero false)) fhalf).
Proof.
  rewrite fhalf_value.
  destruct w as [sw | | | sw mw ew]; try contradiction; intros _; exact I.
Qed.

(** The coning term of the first integration step: the accumulated
    integral and the last increment are still zero. *)
Lemma first_coning_component (iy iz : float) :
  finite iy -> finite iz ->
  zero (fmul (fsub (fmul (fadd f0 (fmul f0 fsixth)) iz)
                   (fmul (fadd f0 (fmul f0 fsixth)) iy)) fhalf).
Proof.
  rewrite fhalf_value.
  assert (Ha : @fadd float binary32 f0 (fmul f0 fsixth) = S754_zero false)
    by (vm_compute; reflexivity).
  rewrite Ha.
  destruct iy as [[|] | | | [|] my ey], iz as [[|] | | | [|] mz ez];
    try contradiction; intros _ _; exact I.
Qed.

(** In [float] arithmetic the first integration step after the
    initializing [put] is the same with and without coning compensation
    whenever its trapezoid is finite: the increments, the return values
    and the read accumulators agree (up to the sign of a zero). *)
Theorem first_step_ignores_coning
        (interval t0 t1 : hrt_abstime) (v0 v1 integral : Vector3 float)
        (integral_dt : Z)
        (Ht0 : t0 <> 0)
        (Hfinite :
           vfinite (trapezoid
                      (put_state (put (new interval false) t0 v0
                                      integral integral_dt)) t1 v1)) :
  let started c :=
    put_state (put (new interval c) t0 v0 integral integral_dt) in
  vsame (increment (started true) t1 v1) (increment (started false) t1 v1) /\
  put_ret (put (started true) t1 v1 integral integral_dt)
  = put_ret (put (started false) t1 v1 integral integral_dt) /\
  vsame (_integral_read
           (put_state (put (started true) t1 v1 integral integral_dt)))
        (_integral_read
           (put_state (put (started false) t1 v1 integral integral_dt))).
Proof.
  cbv beta zeta.
  rewrite (put_uninitialized (new interval true) t0 v0 integral integral_dt)
    by reflexivity.
  rewrite (put_uninitialized (new interval false) t0 v0 integral integral_dt)
    in * by reflexivity.
  cbn [put_state new _auto_reset_interval _integral_auto _integral_read
       _last_delta _auto_callback _coning_comp_on] in *.
  match goal with
  | |- vsame (increment ?a _ _) (increment ?b _ _) /\ _ =>
      set (s_on := a); set (s_off := b) in *
  end.
  assert (Hinc : vsame (increment s_on t1 v1) (increment s_off t1 v1)).
  { unfold increment. cbn [_coning_comp_on s_on s_off].
    change (trapezoid s_on t1 v1) with (trapezoid s_off t1 v1).
    destruct Hfinite as (Hx & Hy & Hz).
    set (i := trapezoid s_off t1 v1) in *.
    unfold coning_term, vsame, vadd, vscale, vcross.
    cbn [vx vy vz _integral_auto _last_delta s_on vzero].
    repeat split; apply SFadd_zero_r;
      apply first_coning_component; assumption. }
  assert (Hon : _last_integration s_on <> 0) by exact Ht0.
  assert (Hoff : _last_integration s_off <> 0) by exact Ht0.
  split; [exact Hinc |]. split.
  - destruct (put_ret (put s_on t1 v1 integral integral_dt)) eqn:Eon;
      destruct (put_ret (put s_off t1 v1 integral integral_dt)) eqn:Eoff;
      try reflexivity.
    + apply (put_ret_spec s_on t1 v1 integral integral_dt Hon) in Eon.
      apply (put_ret_spec s_off t1 v1 integral integral_dt Hoff) in Eon.
      congruence.
    + apply (put_ret_spec s_off t1 v1 integral integral_dt Hoff) in Eoff.
      apply (put_ret_spec s_on t1 v1 integral integral_dt Hon) in Eoff.
      congruence.
  - destruct (put_step_fields s_on t1 v1 integral integral_dt Hon)
      as (_ & _ & _ & Hrd_on & _).
    destruct (put_step_fields s_off t1 v1 integral integral_dt Hoff)
      as (_ & _ & _ & Hrd_off & _).
    rewrite Hrd_on, Hrd_off.
    destruct Hinc as (Hx & Hy & Hz).
    unfold vsame, vadd. cbn [vx vy vz _integral_read s_on s_off vzero].
    repeat split; apply SFadd_zero_l_same; assumption.
Qed.

(** In [float] arithmetic, without coning compensation, a sample that
    repeats the time stamp of the previous one ([dt = 0]) adds nothing to
    either accumulator when the sum of the two samples is finite; it does
    replace the stored last sample. *)
Theorem repeated_timestamp_adds_nothing
        (s : Integrator float) (value integral : Vector3 float)
        (integral_dt : Z)
        (Hinit : _last_integration s <> 0)
        (Hconing : _coning_comp_on s = false)
        (Hfinite : vfinite (vadd value (_last_val s))) :
  let r := put s (_last_integration s) value integral integral_dt in
  vsame (_integral_read (put_state r)) (_integral_read s) /\
  (put_ret r = false -> vsame (get (put_state r)) (get s)) /\
  _last_val (put_state r) = value.
Proof.
  cbv zeta.
  destruct (put_step_fields s (_last_integration s) value integral integral_dt
                            Hinit) as (Hv & _ & _ & Hrd & _).
  assert (Hzero : zero (vx (increment s (_last_integration s) value)) /\
                  zero (vy (increment s (_last_integration s) value)) /\
                  zero (vz (increment s (_last_integration s) value))).
  { unfold increment. rewrite Hconing. unfold trapezoid, sub64, wrap64.
    rewrite Z.sub_diag.
    change (seconds (0 mod two64)) with (S754_zero false).
    destruct Hfinite as (Hx & Hy & Hz).
    unfold vscale. cbn [vx vy vz].
    repeat split; apply zero_step_component; assumption. }
  destruct Hzero as (Zx & Zy & Zz).
  split; [| split; [| exact Hv]].
  - rewrite Hrd. unfold vsame, vadd. cbn [vx vy vz].
    repeat split; apply SFadd_zero_r; assumption.
  - intros Hret.
    destruct (put_no_reset_fields s (_last_integration s) value integral
                                  integral_dt Hinit Hret) as (Hauto & _).
    unfold get. rewrite Hauto. unfold vsame, vadd. cbn [vx vy vz].
    repeat split; apply SFadd_zero_r; assumption.
Qed.
End FloatEdges.

(** ** Coning compensation and the reset test *)

Section SameClock.
Context {F : Type} `{Scalar F}.


End SameClock.

(** ** Coning compensation on data along a coordinate axis *)

Section ConingOnAxis.
Import Binary32 FloatClass32 OnAxis.





















End ConingOnAxis.

Section ConingOnAxisRuns.
Import Binary32 FloatClass32 OnAxis.






End ConingOnAxisRuns.

(** ** Draining the read accumulator *)

Section Draining.
Context {F : Type} `{Scalar F}.

Lemma increment_same_but_read (a b : Integrator F) t v :
  same_but_read a b -> increment a t v = increment b t v.
Proof.
  intros (_ & Hli & _ & Hia & Hlv & Hld & _ & Hc).
  unfold increment, coning_term, trapezoid.
  rewrite Hli, Hia, Hlv, Hld, Hc. reflexivity.
Qed.

(** One [put] on two objects that differ in the read accumulator only. *)
Lemma put_same_but_read (a b : Integrator F) t v o1 o2 :
  same_but_read a b ->
  same_but_read (put_state (put a t v o1 o2)) (put_state (put b t v o1 o2)) /\
  put_ret (put a t v o1 o2) = put_ret (put b t v o1 o2) /\
  put_integral (put a t v o1 o2) = put_integral (put b t v o1 o2) /\
  put_integral_dt (put a t v o1 o2) = put_integral_dt (put b t v o1 o2).
Proof.
  intros Hab.
  pose proof (@increment_same_but_read a b t v Hab) as Hinc.
  destruct Hab as (Hi & Hli & Hla & Hia & Hlv & Hld & Hcb & Hc).
  unfold put, same_but_read.
  rewrite Hi, Hli, Hla, Hia, Hld, Hcb, Hc, Hinc.
  destruct (_last_integration b =? 0).
  - cbn. repeat split; reflexivity.
  - destruct (_auto_reset_interval b <? sub64 t (_last_auto b));
      cbn; repeat split; reflexivity.
Qed.

Lemma feed_same_but_read (samples : list (hrt_abstime * Vector3 F)) :
  forall a b : Integrator F,
    same_but_read a b ->
    published a samples = published b samples /\
    same_but_read (feed a samples) (feed b samples).
Proof.
  induction samples as [| [t v] rest IH]; intros a b Hab.
  - split; [reflexivity | exact Hab].
  - cbn [feed published].
    destruct (@put_same_but_read a b t v vzero 0 Hab)
      as (Hab' & Hret & Hint & Hdt).
    destruct (IH _ _ Hab') as (IHpub & IHab).
    rewrite Hret, Hint, Hdt, IHpub.
    split; [reflexivity | exact IHab].
Qed.

(** Draining with [read (true)] disturbs nothing else, in any arithmetic:
    after the drain the following [put] calls reset at the same calls and
    hand out the same integrals and [integral_dt] values, and [get ()],
    [current_integral_start ()] and every field but [_integral_read] are
    afterwards what they would be had the accumulator not been drained. *)
Theorem draining_disturbs_nothing
        (s : Integrator F) (samples : list (hrt_abstime * Vector3 F)) :
  published (snd (read s true)) samples = published s samples /\
  get (feed (snd (read s true)) samples) = get (feed s samples) /\
  current_integral_start (feed (snd (read s true)) samples)
  = current_integral_start (feed s samples) /\
  same_but_read (feed s samples) (feed (snd (read s true)) samples).
Proof.
  assert (Hab : same_but_read s (snd (read s true))) by (cbn; repeat split).
  destruct (@feed_same_but_read samples _ _ Hab) as (Hp & Hs).
  pose proof Hs as (_ & _ & Hla & Hia & _).
  unfold get, current_integral_start.
  repeat split; try (symmetry; assumption); apply Hs.
Qed.
End Draining.

(** ** The stream theorems at concrete inputs *)

Section StreamInstances.
Import Binary32 Exact Scenario Streams FloatClass32.

Lemma window_never_exceeds_interval_fstream :
  0 <= 4000 /\
  stamps_sorted 0 fstream /\
  well_timed (feed (new 4000 false) fstream).
Proof.
  assert (Hi : 0 <= 4000) by lia.
  assert (Hs : stamps_sorted 0 fstream)
    by (cbn; unfold two64; repeat split; lia).
  split; [exact Hi |]. split; [exact Hs |].
  exact (window_never_exceeds_interval false fstream Hi Hs).
Defined.

Lemma published_windows_tile_time_later_stream :
  well_timed started_at_5000 /\
  _last_integration started_at_5000 <> 0 /\
  stamps_sorted (_last_integration started_at_5000) later_stream /\
  zsum (map snd (published started_at_5000 later_stream))
  = _last_auto (feed started_at_5000 later_stream)
    - _last_auto started_at_5000 /\
  Forall (fun report => _auto_reset_interval started_at_5000 < snd report)
         (published started_at_5000 later_stream).
Proof.
  assert (Hw : well_timed started_at_5000)
    by (unfold well_timed, two64; cbn; lia).
  assert (Hi : _last_integration started_at_5000 <> 0)
    by (cbn; discriminate).
  assert (Hs : stamps_sorted (_last_integration started_at_5000) later_stream)
    by (cbn; unfold two64; repeat split; lia).
  split; [exact Hw |]. split; [exact Hi |]. split; [exact Hs |].
  exact (published_windows_tile_time later_stream Hw Hi Hs).
Defined.

Lemma accumulators_agree_on_short_stream :
  published fresh short_stream = [] /\
  _integral_auto fresh = _integral_read fresh /\
  get (feed fresh short_stream) = fst (read (feed fresh short_stream) false).
Proof.
  assert (Hp : published fresh short_stream = []) by (vm_compute; reflexivity).
  assert (He : _integral_auto fresh = _integral_read fresh) by reflexivity.
  split; [exact Hp |]. split; [exact He |].
  exact (accumulators_agree_without_reset short_stream fresh Hp He).
Defined.

Lemma maximal_interval_never_resets_fstream :
  two64 - 1 <= _auto_reset_interval never_resetting /\
  published never_resetting fstream = [] /\
  forall timestamp value integral integral_dt,
    put_ret (put (feed never_resetting fstream)
                 timestamp value integral integral_dt) = false.
Proof.
  assert (Hm : two64 - 1 <= _auto_reset_interval never_resetting)
    by (cbn; lia).
  split; [exact Hm |].
  exact (maximal_interval_never_resets fstream never_resetting Hm).
Defined.

Lemma first_step_ignores_coning_at_1000_2000 :
  1000 <> 0 /\
  vfinite (trapezoid (put_state (put (new 4000 false) 1000 (vec3 1 2 3) vzero 0))
                     2000 (vec3 3 2 1)) /\
  vsame (increment (put_state (put (new 4000 true) 1000 (vec3 1 2 3) vzero 0))
                   2000 (vec3 3 2 1))
        (increment (put_state (put (new 4000 false) 1000 (vec3 1 2 3) vzero 0))
                   2000 (vec3 3 2 1)).
Proof.
  assert (H0 : 1000 <> 0) by discriminate.
  assert (Hf : vfinite (trapezoid
                          (put_state (put (new 4000 false) 1000 (vec3 1 2 3)
                                          vzero 0))
                          2000 (vec3 3 2 1)))
    by (vm_compute; repeat split).
  split; [exact H0 |]. split; [exact Hf |].
  exact (proj1 (@first_step_ignores_coning 4000 1000 2000 (vec3 1 2 3)
                                           (vec3 3 2 1) vzero 0 H0 Hf)).
Defined.

Lemma repeated_timestamp_after_call2 :
  _last_integration (put_state call2) <> 0 /\
  _coning_comp_on (put_state call2) = false /\
  vfinite (vadd (vec3 2 0 0) (_last_val (put_state call2))) /\
  vsame (_integral_read
           (put_state (put (put_state call2)
                           (_last_integration (put_state call2))
                           (vec3 2 0 0) vzero 0)))
        (_integral_read (put_state call2)).
Proof.
  assert (Hi : _last_integration (put_state call2) <> 0)
    by (vm_compute; discriminate).
  assert (Hc : _coning_comp_on (put_state call2) = false) by reflexivity.
  assert (Hf : vfinite (vadd (vec3 2 0 0) (_last_val (put_state call2))))
    by (vm_compute; repeat split).
  split; [exact Hi |]. split; [exact Hc |]. split; [exact Hf |].
  exact (proj1 (@repeated_timestamp_adds_nothing (put_state call2) (vec3 2 0 0)
                                                 vzero 0 Hi Hc Hf)).
Defined.

End StreamInstances.
